(** * Country-music recommender: a shallow embedding of the Go program

    The program scores a catalog of theme-tagged songs against a user's
    boolean theme selections.  It generates one rule per catalog document
    as text ([extractGrules]), lets a rule engine call the two methods
    [IsSongThemeMatch] and [SetRecommendations] of [UserSelections], picks
    the three best scored documents ([getTopNRecommendations],
    [filterDocuments]) and blanks the themes the user did not select
    ([generateThemeUpdatedDocs]).

    Go values are modelled as follows.
    - [int] is a 64-bit two's complement integer: a [Z] with the wrap-around
      of every arithmetic operation written out ([GoInt]).
    - [string] is a sequence of bytes: Rocq's [string].
    - [map[string]T] is a [gmap string T]; a [range] over a map visits its
      entries in an order the language leaves open, so that order is a
      component of [GoRuntime].
    - A call that can [panic] returns an [outcome].
    - Output written with [fmt.Println] is not modelled. *)

From Stdlib Require Import ZArith Ascii String.
From stdpp Require Import gmap strings list fin_maps sorting pretty.

(** ** Go's [int] *)

Module GoInt.
Local Open Scope Z_scope.

Definition min_int : Z := - 2 ^ 63.
Definition max_int : Z := 2 ^ 63 - 1.

(** The value a 64-bit signed register holds after an operation whose
    mathematical result is [z]. *)
Definition wrap (z : Z) : Z := (z + 2 ^ 63) mod 2 ^ 64 - 2 ^ 63.

Definition add (a b : Z) : Z := wrap (a + b).
Definition sub (a b : Z) : Z := wrap (a - b).
Definition mul (a b : Z) : Z := wrap (a * b).

Definition in_range (z : Z) : Prop := min_int <= z <= max_int.
End GoInt.

(** ** Panics *)

(** A Go [error] value, identified with the message it carries. *)
Definition error : Type := string.

Inductive outcome (A : Type) : Type :=
  | Return (a : A)
  | Panic (err : error).
Arguments Return {A} a.
Arguments Panic {A} err.

Definition returns {A} (o : outcome A) : Prop := exists a, o = Return a.
Definition panics {A} (o : outcome A) : Prop := exists e, o = Panic e.

(** ** Data model *)

Record CountryMusicDocument : Type := {
  RuleID : string;
  Artist : string;
  Title : string;
  LyricQuote : string;
  VideoLink : string;
  Themes : gmap string string
}.

(** [Recommendations] is always an allocated map: [getUserSelections], the
    only place a [UserSelections] is built, makes it. *)
Record UserSelections : Type := {
  Adventure : bool;
  America : bool;
  CarsTrucksTractors : bool;
  Goodtimes : bool;
  Grit : bool;
  Home : bool;
  Love : bool;
  HeartBreak : bool;
  Lessons : bool;
  Rebellion : bool;
  Recommendations : gmap string Z
}.

Record IncomingRequest : Type := {
  IncomingThemes : gmap string bool
}.

(** [p.Recommendations[songId] = v] *)
Definition storeRecommendation (p : UserSelections) (songId : string) (v : Z)
  : UserSelections :=
  {| Adventure := Adventure p; America := America p;
     CarsTrucksTractors := CarsTrucksTractors p; Goodtimes := Goodtimes p;
     Grit := Grit p; Home := Home p; Love := Love p;
     HeartBreak := HeartBreak p; Lessons := Lessons p;
     Rebellion := Rebellion p;
     Recommendations := <[songId := v]> (Recommendations p) |}.

(** ** Reflection on [UserSelections] *)

(** The struct's fields, as [reflect] enumerates them. *)
Inductive field : Type :=
  | FAdventure | FAmerica | FCarsTrucksTractors | FGoodtimes | FGrit
  | FHome | FLove | FHeartBreak | FLessons | FRebellion
  | FRecommendations.

Inductive kind : Type := KBool | KMap.

Definition nameOfField (f : field) : string :=
  match f with
  | FAdventure => "Adventure"
  | FAmerica => "America"
  | FCarsTrucksTractors => "CarsTrucksTractors"
  | FGoodtimes => "Goodtimes"
  | FGrit => "Grit"
  | FHome => "Home"
  | FLove => "Love"
  | FHeartBreak => "HeartBreak"
  | FLessons => "Lessons"
  | FRebellion => "Rebellion"
  | FRecommendations => "Recommendations"
  end.

Definition fieldKind (f : field) : kind :=
  match f with
  | FRecommendations => KMap
  | _ => KBool
  end.

Definition allFields : list field :=
  [FAdventure; FAmerica; FCarsTrucksTractors; FGoodtimes; FGrit;
   FHome; FLove; FHeartBreak; FLessons; FRebellion; FRecommendations].

(** The ten boolean fields: the theme vocabulary. *)
Definition themeFields : list field :=
  [FAdventure; FAmerica; FCarsTrucksTractors; FGoodtimes; FGrit;
   FHome; FLove; FHeartBreak; FLessons; FRebellion].

Definition vocabulary : list string := nameOfField <$> themeFields.

(** [reflect.Value.FieldByName]: the field with exactly that name, if any. *)
Definition FieldByName (name : string) : option field :=
  List.find (fun f => String.eqb (nameOfField f) name) allFields.

(** [field.Bool()] for a boolean field. *)
Definition fieldBool (p : UserSelections) (f : field) : bool :=
  match f with
  | FAdventure => Adventure p
  | FAmerica => America p
  | FCarsTrucksTractors => CarsTrucksTractors p
  | FGoodtimes => Goodtimes p
  | FGrit => Grit p
  | FHome => Home p
  | FLove => Love p
  | FHeartBreak => HeartBreak p
  | FLessons => Lessons p
  | FRebellion => Rebellion p
  | FRecommendations => false
  end.

Definition GetField (p : UserSelections) (fieldName : string)
  : bool * option error :=
  match FieldByName fieldName with
  | None => (false, Some ("field '" +:+ fieldName +:+ "' does not exist"))
  | Some f =>
      match fieldKind f with
      | KBool => (fieldBool p f, None)
      | KMap => (false, Some ("field '" +:+ fieldName +:+ "' is not a boolean"))
      end
  end.

(** ** The two methods the rules call *)

Fixpoint IsSongThemeMatch (p : UserSelections) (songId : string)
    (songThemes : list string) : outcome bool :=
  match songThemes with
  | [] => Return false
  | theme :: rest =>
      match GetField p theme with
      | (_, Some err) => Panic err
      | (true, None) => Return true
      | (false, None) => IsSongThemeMatch p songId rest
      end
  end.

(** The counting loop of [SetRecommendations]; [matchCount] is the counter
    on entry. *)
Fixpoint countMatches (p : UserSelections) (songThemes : list string)
    (matchCount : Z) : outcome Z :=
  match songThemes with
  | [] => Return matchCount
  | theme :: rest =>
      match GetField p theme with
      | (_, Some err) => Panic err
      | (true, None) => countMatches p rest (GoInt.add matchCount 1)
      | (false, None) => countMatches p rest matchCount
      end
  end.

Definition SetRecommendations (p : UserSelections) (songId : string)
    (songThemes : list string) : outcome (UserSelections * Z) :=
  match countMatches p songThemes 0 with
  | Panic err => Panic err
  | Return matchCount =>
      let matchCount := GoInt.mul matchCount 10 in
      let matchCount :=
        GoInt.sub matchCount
          (GoInt.sub (Z.of_nat (length songThemes)) matchCount) in
      Return (storeRecommendation p songId matchCount, matchCount)
  end.

(** [getUserSelections], after the JSON body has been decoded: a missing
    key reads as [false]. *)
Definition getUserSelections (incoming : IncomingRequest) : UserSelections :=
  let flag key := default false (IncomingThemes incoming !! key) in
  {| Adventure := flag "adventure";
     America := flag "america";
     CarsTrucksTractors := flag "carsTrucksTractors";
     Goodtimes := flag "goodtimes";
     Grit := flag "grit";
     Home := flag "home";
     Love := flag "love";
     HeartBreak := flag "heartbreak";
     Lessons := flag "lessons";
     Rebellion := flag "rebellion";
     Recommendations := ∅ |}.

(** [SetRecommendations] as the earlier file country.go has it: the bare
    count is stored, with neither the factor ten nor the penalty. *)
Module Country.
Definition SetRecommendations (p : UserSelections) (songId : string)
    (songThemes : list string) : outcome (UserSelections * Z) :=
  match countMatches p songThemes 0 with
  | Panic err => Panic err
  | Return matchCount =>
      Return (storeRecommendation p songId matchCount, matchCount)
  end.
End Country.

(** ** What the Go runtime and library leave open *)

(** The requirement [sort.Slice] puts on its [less]: a strict weak ordering,
    stated as irreflexive, transitive and negatively transitive. *)
Definition strictWeakOrder {A : Type} (less : A -> A -> bool) : Prop :=
  (forall a, less a a = false) /\
  (forall a b c, less a b = true -> less b c = true -> less a c = true) /\
  (forall a b c, less a b = false -> less b c = false -> less a c = false).

(** - [rangeMap m] is the sequence of entries a [range] over [m] yields:
      some arrangement of the entries of [m].  One arrangement per map is
      enough here: no function of the program ranges over the same map
      twice.
    - [sortSlice less l] is the slice [sort.Slice] leaves behind: a
      rearrangement of [l], sorted when [less] is a strict weak ordering;
      nothing is promised about elements that compare equal.
    - [lowerUnicode] and [upperUnicode] are [strings.ToLower] and
      [strings.ToUpper] on strings that are not pure ASCII, which go through
      the Unicode tables. *)
Class GoRuntime : Type := {
  rangeMap : forall {V : Type}, gmap string V -> list (string * V);
  rangeMap_perm : forall (V : Type) (m : gmap string V),
    rangeMap m ≡ₚ map_to_list m;
  sortSlice : forall {A : Type}, (A -> A -> bool) -> list A -> list A;
  sortSlice_perm : forall (A : Type) (less : A -> A -> bool) (l : list A),
    sortSlice less l ≡ₚ l;
  sortSlice_sorted : forall (A : Type) (less : A -> A -> bool) (l : list A),
    strictWeakOrder less ->
    StronglySorted (fun a b => less b a = false) (sortSlice less l);
  lowerUnicode : string -> string;
  upperUnicode : string -> string
}.

(** ** Strings *)

Definition dq : string := String "034"%char EmptyString.
Definition nl : string := String "010"%char EmptyString.

(** [fmt.Sprintf] with the format that puts [%s] between double quotes. *)
Definition quoted (s : string) : string := dq +:+ s +:+ dq.

Fixpoint isASCII (s : string) : bool :=
  match s with
  | EmptyString => true
  | String c rest => Nat.ltb (nat_of_ascii c) 128 && isASCII rest
  end.

Fixpoint mapBytes (f : ascii -> ascii) (s : string) : string :=
  match s with
  | EmptyString => EmptyString
  | String c rest => String (f c) (mapBytes f rest)
  end.

Definition lowerByte (c : ascii) : ascii :=
  let n := nat_of_ascii c in
  if Nat.leb 65 n && Nat.leb n 90 then ascii_of_nat (n + 32) else c.

Definition upperByte (c : ascii) : ascii :=
  let n := nat_of_ascii c in
  if Nat.leb 97 n && Nat.leb n 122 then ascii_of_nat (n - 32) else c.

Definition ToLower `{GoRuntime} (s : string) : string :=
  if isASCII s then mapBytes lowerByte s else lowerUnicode s.

Definition ToUpper `{GoRuntime} (s : string) : string :=
  if isASCII s then mapBytes upperByte s else upperUnicode s.

(** [strings.Join] *)
Fixpoint Join (elems : list string) (sep : string) : string :=
  match elems with
  | [] => EmptyString
  | e :: rest =>
      match rest with
      | [] => e
      | _ :: _ => e +:+ sep +:+ Join rest sep
      end
  end.

Definition capitalizeFirstLetter `{GoRuntime} (s : string) : string :=
  match s with
  | EmptyString => s
  | String c rest => ToUpper (String c EmptyString) +:+ rest
  end.

(** ** The rule compiler *)

(** [fmt.Sprintf(ruleFormat, a1, ..., a7)] *)
Definition ruleFormat (a1 a2 a3 a4 a5 a6 a7 : string) : string :=
  "rule Check" +:+ a1 +:+ " " +:+ dq +:+ a2 +:+ dq +:+ " salience 10 {" +:+ nl +:+
  "            when" +:+ nl +:+
  "               UserSelections.IsSongThemeMatch(" +:+ a3 +:+ ", " +:+ a4 +:+ ")" +:+ nl +:+
  "            then" +:+ nl +:+
  "               UserSelections.SetRecommendations(" +:+ a5 +:+ ", " +:+ a6 +:+ ");" +:+ nl +:+
  "               Retract(" +:+ dq +:+ "Check" +:+ a7 +:+ dq +:+ ");" +:+ nl +:+
  "        }".

(** The names a document's rule passes to the two methods: the keys with a
    non-empty description, first letter capitalised, in [range] order. *)
Definition themeNames `{GoRuntime} (document : CountryMusicDocument)
  : list string :=
  (fun kv => capitalizeFirstLetter kv.1)
    <$> filter (fun kv : string * string => kv.2 <> EmptyString)
          (rangeMap (Themes document)).

(** The slice [themes] of [extractGrules]: each name between double
    quotes. *)
Definition quotedThemes `{GoRuntime} (document : CountryMusicDocument)
  : list string :=
  quoted <$> themeNames document.

Definition ruleText `{GoRuntime} (document : CountryMusicDocument) : string :=
  let themes := quotedThemes document in
  ruleFormat (RuleID document) (Title document)
    (quoted (RuleID document)) (Join themes ", ")
    (quoted (RuleID document)) (Join themes ", ")
    (RuleID document).

Definition extractGrules `{GoRuntime} (documents : list CountryMusicDocument)
  : string :=
  Join (ruleText <$> documents) (nl +:+ nl).

(** ** The rules as the engine runs them

    The engine is an imported package; its code is not part of the
    sources.  A rule holds what the template of [extractGrules] writes into
    its [when] and [then] parts: the identifier and the theme names handed
    to [IsSongThemeMatch] and to [SetRecommendations]. *)
Record Rule : Type := {
  ruleSongId : string;
  ruleSongThemes : list string
}.

Definition documentRule `{GoRuntime} (document : CountryMusicDocument) : Rule :=
  {| ruleSongId := RuleID document; ruleSongThemes := themeNames document |}.

(** Modelled from the spec: one rule of an evaluation pass (spec 4.2).  The
    engine evaluates the rule's condition and, when it holds, executes the
    action and deactivates the rule, so the action runs once and only after
    the condition came out true.  A condition that fails on a name outside
    the vocabulary makes the rule never-true; it is not fatal (spec 4.2 and
    7, UnknownThemeReference).  Condition and action are the two methods of
    the sources.  The spec takes the action for total and gives no policy
    for one that fails: its panic is handed on, as a Go call hands it on. *)
Definition fireRule (p : UserSelections) (r : Rule) : outcome UserSelections :=
  match IsSongThemeMatch p (ruleSongId r) (ruleSongThemes r) with
  | Panic _ => Return p
  | Return false => Return p
  | Return true =>
      match SetRecommendations p (ruleSongId r) (ruleSongThemes r) with
      | Panic err => Panic err
      | Return (p', _) => Return p'
      end
  end.

(** Modelled from the spec: the evaluation pass (spec 4.2).  All rules have
    the same priority, so they are scanned in compilation order; a
    condition reads the preference flags only, which no action changes, so
    one scan is the whole pass. *)
Fixpoint evaluate (p : UserSelections) (rules : list Rule)
  : outcome UserSelections :=
  match rules with
  | [] => Return p
  | r :: rest =>
      match fireRule p r with
      | Panic err => Panic err
      | Return p' => evaluate p' rest
      end
  end.

(** ** Selection *)

(** The anonymous struct of [getTopNRecommendations]. *)
Record entry : Type := { Key : string; Value : Z }.

(** The [less] handed to [sort.Slice]: [sortedList[i].Value > sortedList[j].Value]. *)
Definition byValueDescending (i j : entry) : bool := Z.ltb (Value j) (Value i).

Definition getTopNRecommendations `{GoRuntime}
    (recommendations : gmap string Z) (N : Z) : outcome (list string) :=
  let sortedList :=
    (fun kv : string * Z => {| Key := kv.1; Value := kv.2 |})
      <$> rangeMap recommendations in
  let sortedList := sortSlice byValueDescending sortedList in
  let N :=
    if Z.ltb (Z.of_nat (length sortedList)) N
    then Z.of_nat (length sortedList) else N in
  if Z.ltb N 0
  then Panic ("runtime error: slice bounds out of range [:" +:+ pretty N +:+ "]")
  else Return (Key <$> take (Z.to_nat N) sortedList).

Definition filterDocuments (documents : list CountryMusicDocument)
    (topRuleIDs : list string) : list CountryMusicDocument :=
  let ruleIDMap : gmap string bool :=
    foldl (fun m id => <[id := true]> m) ∅ topRuleIDs in
  filter (fun doc => default false (ruleIDMap !! RuleID doc) = true) documents.

(** ** Redaction *)

(** The map literal [themeKeys]: the entries are stored one after the
    other. *)
Definition themeKeys `{GoRuntime} (userSelections : UserSelections)
  : gmap string bool :=
  foldl (fun m kv => <[kv.1 := kv.2]> m) ∅
    [ (ToLower "Adventure", Adventure userSelections);
      (ToLower "America", America userSelections);
      (ToLower "CarsTrucksTractors", CarsTrucksTractors userSelections);
      (ToLower "Goodtimes", Goodtimes userSelections);
      (ToLower "Grit", Grit userSelections);
      (ToLower "Home", Home userSelections);
      (ToLower "Love", Love userSelections);
      (ToLower "HeartBreak", HeartBreak userSelections);
      (ToLower "Lessons", Lessons userSelections);
      (ToLower "Rebellion", Rebellion userSelections) ].

(** One turn of the inner loop: [updatedThemes[theme]] is set to [value] or
    to the empty string. *)
Definition updateTheme `{GoRuntime} (keys : gmap string bool)
    (updatedThemes : gmap string string) (kv : string * string)
  : gmap string string :=
  let normalizedTheme := ToLower kv.1 in
  if default false (keys !! normalizedTheme)
  then <[kv.1 := kv.2]> updatedThemes
  else <[kv.1 := EmptyString]> updatedThemes.

(** The body of the outer loop: the document appended for [doc]. *)
Definition themeUpdatedDoc `{GoRuntime} (keys : gmap string bool)
    (doc : CountryMusicDocument) : CountryMusicDocument :=
  let updatedThemes := foldl (updateTheme keys) ∅ (rangeMap (Themes doc)) in
  {| RuleID := RuleID doc;
     Artist := Artist doc;
     Title := Title doc;
     LyricQuote := LyricQuote doc;
     VideoLink := VideoLink doc;
     Themes := updatedThemes |}.

Definition generateThemeUpdatedDocs `{GoRuntime}
    (filteredDocs : list CountryMusicDocument) (userSelections : UserSelections)
  : list CountryMusicDocument :=
  themeUpdatedDoc (themeKeys userSelections) <$> filteredDocs.

(** ** The pipeline *)

Definition filterDocumentsByRecommendations `{GoRuntime}
    (documents : list CountryMusicDocument) (userSelections : UserSelections)
  : outcome (list CountryMusicDocument) :=
  match getTopNRecommendations (Recommendations userSelections) 3 with
  | Panic err => Panic err
  | Return topRuleIDs =>
      let filteredDocs := filterDocuments documents topRuleIDs in
      Return (generateThemeUpdatedDocs filteredDocs userSelections)
  end.

(** [handleRequest] from the point where the catalog and the user's
    selections are at hand.  The rule builder and the engine are imported:
    [BuildRuleFromResource] stands for the builder's verdict on the rule
    text, [Execute] for the engine's run over the fact. *)
Definition handleRequest `{GoRuntime}
    (BuildRuleFromResource : string -> option error)
    (Execute : string -> UserSelections -> UserSelections * option error)
    (documents : list CountryMusicDocument) (userSelections : UserSelections)
  : outcome (list CountryMusicDocument) :=
  let documentRules := extractGrules documents in
  match BuildRuleFromResource documentRules with
  | Some err => Panic err
  | None =>
      match Execute documentRules userSelections with
      | (_, Some err) => Panic err
      | (userSelections, None) =>
          filterDocumentsByRecommendations documents userSelections
      end
  end.

(** ** Reading the catalog

    The values of a scanned table item.  The program looks at the string,
    number, map and list members only; [AttributeValueMemberOther] stands
    for the remaining members, and [AttributeNil] for the nil interface,
    which is what a missing key of an item reads as. *)
#[warnings="-register-all"]
Inductive AttributeValue : Type :=
  | AttributeNil
  | AttributeValueMemberS (Value : string)
  | AttributeValueMemberN (Value : string)
  | AttributeValueMemberM (Value : gmap string AttributeValue)
  | AttributeValueMemberL (Value : list AttributeValue)
  | AttributeValueMemberOther.

(** [item[key]] on a [map[string]types.AttributeValue]. *)
Definition itemAt (item : gmap string AttributeValue) (key : string)
  : AttributeValue :=
  default AttributeNil (item !! key).

Definition getStringValue (attr : AttributeValue) : string :=
  match attr with
  | AttributeValueMemberS Value => Value
  | _ => EmptyString
  end.

Definition extractThemes `{GoRuntime} (attr : AttributeValue)
  : gmap string string :=
  match attr with
  | AttributeValueMemberM Value =>
      foldl (fun themes kv => <[kv.1 := getStringValue kv.2]> themes) ∅
        (rangeMap Value)
  | _ => ∅
  end.

(** The document built for one item. *)
Definition documentOfItem `{GoRuntime} (item : gmap string AttributeValue)
  : CountryMusicDocument :=
  {| RuleID := getStringValue (itemAt item "RuleID");
     Artist := getStringValue (itemAt item "artist");
     Title := getStringValue (itemAt item "title");
     LyricQuote := getStringValue (itemAt item "lyricQuote");
     VideoLink := getStringValue (itemAt item "videoLink");
     Themes := extractThemes (itemAt item "themes") |}.

(** [extractJSONFromDocuments]; country.go has the same function under the
    name [extractRecommendations]. *)
Definition extractJSONFromDocuments `{GoRuntime}
    (items : list (gmap string AttributeValue)) : list CountryMusicDocument :=
  documentOfItem <$> items.

(** ** Two runtimes

    Insertion sort as [sort.Slice] runs it on short slices: each element
    moves left past the elements it is [less] than.  [insertBack] keeps the
    sorted prefix reversed, last element first. *)
Fixpoint insertBack {A : Type} (less : A -> A -> bool) (x : A)
    (sortedRev : list A) : list A :=
  match sortedRev with
  | [] => [x]
  | z :: zs => if less x z then z :: insertBack less x zs else x :: sortedRev
  end.

Definition insertionSort {A : Type} (less : A -> A -> bool) (l : list A)
  : list A :=
  reverse (foldl (fun sortedRev x => insertBack less x sortedRev) [] l).

(** ** Vocabulary of the statements *)

(** [name] names one of the ten boolean fields of [UserSelections]. *)
Definition isThemeField (name : string) : bool :=
  match FieldByName name with
  | Some f => match fieldKind f with KBool => true | KMap => false end
  | None => false
  end.

(** The user selected the theme called [name]. *)
Definition selectedTheme (p : UserSelections) (name : string) : bool :=
  (GetField p name).1.

(** How many of [songThemes] the user selected. *)
Definition matchCount (p : UserSelections) (songThemes : list string) : nat :=
  length (filter (fun theme => selectedTheme p theme = true) songThemes).

(** The user of the spec's examples: Home and America selected. *)
Definition homeAmericaUser : UserSelections :=
  getUserSelections
    {| IncomingThemes := <["home" := true]> (<["america" := true]> ∅) |}.

Definition exampleDoc (id title : string) (themes : list (string * string))
  : CountryMusicDocument :=
  {| RuleID := id; Artist := "artist"; Title := title;
     LyricQuote := "lyric"; VideoLink := "video";
     Themes := list_to_map themes |}.

(** A document tagged with the key the request decoder itself uses for
    [HeartBreak]. *)
Definition heartbreakDoc : CountryMusicDocument :=
  exampleDoc "10001" "All My Ex's Live In Texas" [("heartbreak", "left behind")].

(** A document that carries [home] once and five other themes under both
    spellings of their first letter. *)
Definition crowdedDoc : CountryMusicDocument :=
  exampleDoc "10002" "Crowded"
    [("home", "h");
     ("adventure", "a"); ("Adventure", "a");
     ("goodtimes", "g"); ("Goodtimes", "g");
     ("grit", "g"); ("Grit", "g");
     ("love", "l"); ("Love", "l");
     ("lessons", "l"); ("Lessons", "l")].

(** A document without any theme. *)
Definition themelessDoc : CountryMusicDocument := exampleDoc "10000" "T" [].

(** A document whose title holds a double quote. *)
Definition quoteTitleDoc : CountryMusicDocument :=
  exampleDoc "10003" ("Honky Tonk " +:+ dq +:+ "Badonkadonk") [("goodtimes", "dance")].

(** [sub] occurs in [s]. *)
Definition contains (s sub : string) : Prop :=
  exists pre post, s = pre +:+ sub +:+ post.

(** The first line of a document's rule, as the template spells it. *)
Definition ruleHeader (document : CountryMusicDocument) : string :=
  "rule Check" +:+ RuleID document +:+ " " +:+ dq +:+ Title document +:+ dq
  +:+ " salience 10 {".

(** Two documents with the same single theme, and a catalog in which a
    document with two themes comes before one with a single theme. *)
Definition tieDocA : CountryMusicDocument := exampleDoc "A" "First" [("home", "x")].
Definition tieDocB : CountryMusicDocument := exampleDoc "B" "Second" [("home", "y")].
Definition twoThemeDoc : CountryMusicDocument :=
  exampleDoc "A" "Two themes" [("home", "x"); ("love", "y")].
Definition oneThemeDoc : CountryMusicDocument :=
  exampleDoc "B" "One theme" [("home", "z")].

(** The entry a [range] turn appends to [sortedList]. *)
Definition toEntry (kv : string * Z) : entry := {| Key := kv.1; Value := kv.2 |}.

(** A score map with two scored documents. *)
Definition scenarioScores : gmap string Z := <["A" := 38%Z]> (<["B" := 19%Z]> ∅).

(** The score map in which [A] and [B] tie. *)
Definition tieScores : gmap string Z := <["A" := 19%Z]> (<["B" := 19%Z]> ∅).

(** The user selected a theme whose name is [key] up to letter case, as
    [strings.ToLower] folds it. *)
Definition userSelected `{GoRuntime} (userSelections : UserSelections)
    (key : string) : bool :=
  existsb
    (fun f => String.eqb (ToLower (nameOfField f)) (ToLower key)
              && fieldBool userSelections f)
    themeFields.

(** What redaction leaves of the value stored under [key]. *)
Definition redactedValue `{GoRuntime} (userSelections : UserSelections)
    (key value : string) : string :=
  if userSelected userSelections key then value else EmptyString.

(** The document of the spec's end-to-end scenario, with a third theme. *)
Definition scenarioDoc : CountryMusicDocument :=
  exampleDoc "A" "Take Me Home" [("Home", "x"); ("america", "y"); ("love", "z")].

(** Two records with the same ten flags. *)
Definition sameFlags (p q : UserSelections) : Prop :=
  forall f, fieldBool p f = fieldBool q f.

(** The key under which [getUserSelections] reads a field. *)
Definition requestKey (f : field) : string :=
  match f with
  | FAdventure => "adventure"
  | FAmerica => "america"
  | FCarsTrucksTractors => "carsTrucksTractors"
  | FGoodtimes => "goodtimes"
  | FGrit => "grit"
  | FHome => "home"
  | FLove => "love"
  | FHeartBreak => "heartbreak"
  | FLessons => "lessons"
  | FRebellion => "rebellion"
  | FRecommendations => EmptyString
  end.

(** The score [SetRecommendations] records for a list of themes. *)
Definition scoreOf (p : UserSelections) (songThemes : list string) : Z :=
  (20 * Z.of_nat (matchCount p songThemes) - Z.of_nat (length songThemes))%Z.

(** A catalog item with a string, a number and an empty string among its
    themes. *)
Definition exampleItem : gmap string AttributeValue :=
  list_to_map
    [("RuleID", AttributeValueMemberS "10004");
     ("title", AttributeValueMemberS "Wagon Wheel");
     ("themes", AttributeValueMemberM (list_to_map
        [("home", AttributeValueMemberS "south");
         ("love", AttributeValueMemberN "7");
         ("grit", AttributeValueMemberS EmptyString)]))].

(** The first byte of [key] is a lower-case ASCII letter. *)
Definition lowerFirst (key : string) : bool :=
  match key with
  | EmptyString => false
  | String c _ =>
      Nat.leb 97 (nat_of_ascii c) && Nat.leb (nat_of_ascii c) 122
  end.

(** A capitalised name together with the mark that tells which of its two
    spellings the catalog key had, and the key these two determine. *)
Definition spelling `{GoRuntime} (key : string) : string * bool :=
  (capitalizeFirstLetter key, lowerFirst key).

Definition keyOfSpelling (sp : string * bool) : string :=
  match sp.1 with
  | EmptyString => EmptyString
  | String c rest =>
      String (if sp.2 then ascii_of_nat (nat_of_ascii c + 32) else c) rest
  end.

(** A document that carries [home] once and the nine other themes under
    both spellings of their first letter. *)
Definition fullDoc : CountryMusicDocument :=
  exampleDoc "10005" "Everything"
    [("home", "h");
     ("adventure", "a"); ("Adventure", "a");
     ("america", "a"); ("America", "a");
     ("carsTrucksTractors", "c"); ("CarsTrucksTractors", "c");
     ("goodtimes", "g"); ("Goodtimes", "g");
     ("grit", "g"); ("Grit", "g");
     ("love", "l"); ("Love", "l");
     ("heartBreak", "h"); ("HeartBreak", "h");
     ("lessons", "l"); ("Lessons", "l");
     ("rebellion", "r"); ("Rebellion", "r")].

(** The user who selected Home only. *)
Definition homeUser : UserSelections :=
  getUserSelections {| IncomingThemes := <["home" := true]> ∅ |}.

(** * Properties *)

(** ** Integers *)

Lemma wrap_in_range z : GoInt.in_range z -> GoInt.wrap z = z.
Proof.
  unfold GoInt.in_range, GoInt.min_int, GoInt.max_int, GoInt.wrap. intros Hz.
  rewrite Z.mod_small; lia.
Qed.

(** ** Field lookup *)

Lemma FieldByName_Some name f :
  FieldByName name = Some f -> nameOfField f = name.
Proof.
  unfold FieldByName. intros Hf. apply List.find_some in Hf as [_ Heq].
  by apply String.eqb_eq.
Qed.

Lemma FieldByName_nameOfField f : FieldByName (nameOfField f) = Some f.
Proof. by destruct f. Qed.

Lemma GetField_theme p name :
  isThemeField name = true ->
  exists f, f ∈ themeFields /\ nameOfField f = name /\
            GetField p name = (fieldBool p f, None).
Proof.
  unfold isThemeField, GetField.
  destruct (FieldByName name) as [f|] eqn:Hf; [|done].
  apply FieldByName_Some in Hf.
  destruct (fieldKind f) eqn:Hk; [|done]. intros _.
  exists f. split_and!; [|done..].
  destruct f; try discriminate Hk; unfold themeFields; set_solver.
Qed.

Lemma GetField_not_theme p name :
  isThemeField name = false -> exists err, GetField p name = (false, Some err).
Proof.
  unfold isThemeField, GetField.
  destruct (FieldByName name) as [f|]; [|by eauto].
  destruct (fieldKind f); [done|by eauto].
Qed.

Lemma GetField_no_error p name :
  (GetField p name).2 = None <-> isThemeField name = true.
Proof.
  destruct (isThemeField name) eqn:Hn.
  - destruct (GetField_theme p _ Hn) as (f & _ & _ & ->). done.
  - destruct (GetField_not_theme p _ Hn) as (err & ->). done.
Qed.

(** ** Scoring *)

Lemma matchCount_cons p theme rest :
  matchCount p (theme :: rest)
  = (if selectedTheme p theme then 1 else 0) + matchCount p rest.
Proof.
  unfold matchCount. rewrite filter_cons.
  destruct (selectedTheme p theme); by case_decide.
Qed.

Lemma countMatches_theme p songThemes (acc : Z) :
  Forall (fun t => isThemeField t = true) songThemes ->
  (0 <= acc)%Z ->
  (acc + Z.of_nat (length songThemes) <= GoInt.max_int)%Z ->
  countMatches p songThemes acc
  = Return (acc + Z.of_nat (matchCount p songThemes))%Z.
Proof.
  intros Hall. revert acc.
  induction Hall as [|theme rest Htheme _ IH]; intros acc Hacc Hmax.
  - cbn. f_equal. lia.
  - destruct (GetField_theme p _ Htheme) as (f & _ & _ & Hget).
    rewrite matchCount_cons. unfold selectedTheme at 1.
    cbn [countMatches length] in *. rewrite Hget. cbn [fst].
    destruct (fieldBool p f).
    + unfold GoInt.add. rewrite wrap_in_range.
      2:{ unfold GoInt.in_range, GoInt.min_int, GoInt.max_int in *. lia. }
      rewrite IH by lia. f_equal. lia.
    + rewrite IH by lia. done.
Qed.

Lemma countMatches_returns p songThemes acc v :
  countMatches p songThemes acc = Return v ->
  Forall (fun t => isThemeField t = true) songThemes.
Proof.
  revert acc. induction songThemes as [|theme rest IH]; intros acc; [done|].
  cbn [countMatches].
  destruct (isThemeField theme) eqn:Htheme.
  - destruct (GetField_theme p _ Htheme) as (f & _ & _ & ->).
    destruct (fieldBool p f); intros Hret; constructor; eauto.
  - destruct (GetField_not_theme p _ Htheme) as (err & ->). done.
Qed.

Lemma matchCount_le p songThemes : matchCount p songThemes <= length songThemes.
Proof. apply length_filter. Qed.

Lemma SetRecommendations_theme p songId songThemes :
  Forall (fun t => isThemeField t = true) songThemes ->
  (Z.of_nat (length songThemes) < 2 ^ 58)%Z ->
  let score :=
    (20 * Z.of_nat (matchCount p songThemes) - Z.of_nat (length songThemes))%Z in
  SetRecommendations p songId songThemes
  = Return (storeRecommendation p songId score, score).
Proof.
  intros Hall Hlen score. unfold SetRecommendations.
  pose proof (matchCount_le p songThemes) as Hle.
  rewrite (countMatches_theme p songThemes 0 Hall); [|lia|].
  2:{ unfold GoInt.max_int. lia. }
  unfold GoInt.mul, GoInt.sub. rewrite Z.add_0_l.
  set (mc := Z.of_nat (matchCount p songThemes)) in *.
  set (tc := Z.of_nat (length songThemes)) in *.
  assert (Hmc : (0 <= mc <= tc)%Z) by lia.
  rewrite (wrap_in_range (mc * 10)).
  2:{ unfold GoInt.in_range, GoInt.min_int, GoInt.max_int. lia. }
  rewrite (wrap_in_range (tc - mc * 10)).
  2:{ unfold GoInt.in_range, GoInt.min_int, GoInt.max_int. lia. }
  rewrite wrap_in_range.
  2:{ unfold GoInt.in_range, GoInt.min_int, GoInt.max_int. lia. }
  replace (mc * 10 - (tc - mc * 10))%Z with score by (subst score; lia).
  done.
Qed.

(** C1. When [SetRecommendations] completes (it does whenever every theme
    it is given names a boolean field), the value it stores under [songId]
    and returns is [matchCount*10 - (themeCount - matchCount*10)], that is
    [20*matchCount - themeCount]; [themeCount] is the number of themes
    passed and [matchCount] the number of them the user selected.  The
    bound on the number of themes keeps the arithmetic within 64 bits; no
    slice of strings is that long. *)
Theorem SetRecommendations_score p songId songThemes :
  (Z.of_nat (length songThemes) < 2 ^ 58)%Z ->
  let mc := Z.of_nat (matchCount p songThemes) in
  let tc := Z.of_nat (length songThemes) in
  let score := (mc * 10 - (tc - mc * 10))%Z in
  score = (20 * mc - tc)%Z /\
  (Forall (fun t => isThemeField t = true) songThemes ->
   SetRecommendations p songId songThemes
   = Return (storeRecommendation p songId score, score)) /\
  (forall p' v,
     SetRecommendations p songId songThemes = Return (p', v) ->
     v = score /\ Recommendations p' !! songId = Some score).
Proof.
  intros Hlen mc tc score.
  assert (Hscore : score = (20 * mc - tc)%Z) by (subst score; lia).
  assert (Hset : Forall (fun t => isThemeField t = true) songThemes ->
    SetRecommendations p songId songThemes
    = Return (storeRecommendation p songId score, score)).
  { intros Hall. rewrite Hscore. by apply SetRecommendations_theme. }
  split_and!; [done..|].
  intros p' v Hret.
  assert (Hall : Forall (fun t => isThemeField t = true) songThemes).
  { unfold SetRecommendations in Hret.
    destruct (countMatches p songThemes 0) eqn:Hc; [|done].
    by eapply countMatches_returns. }
  rewrite (Hset Hall) in Hret. injection Hret as <- <-.
  split; [done|]. cbn. by rewrite lookup_insert_eq.
Qed.

Lemma SetRecommendations_score_witness :
  SetRecommendations homeAmericaUser "A" ["Home"; "America"; "Love"]
  = Return (storeRecommendation homeAmericaUser "A" 37, 37%Z).
Proof.
  apply (SetRecommendations_score homeAmericaUser "A"
           ["Home"; "America"; "Love"]).
  - reflexivity.
  - repeat constructor.
Defined.

(** ** Insertion sort meets the contract of [sortSlice] *)

Lemma insertBack_perm {A} (less : A -> A -> bool) x l :
  insertBack less x l ≡ₚ x :: l.
Proof.
  induction l as [|z zs IH]; cbn; [done|].
  destruct (less x z); [|done]. rewrite IH. apply Permutation_swap.
Qed.

Lemma insertionSort_perm {A} (less : A -> A -> bool) l :
  insertionSort less l ≡ₚ l.
Proof.
  unfold insertionSort. rewrite reverse_Permutation.
  assert (Hgen : forall acc,
    foldl (fun sortedRev x => insertBack less x sortedRev) acc l ≡ₚ acc ++ l).
  { induction l as [|x l IH]; intros acc; cbn.
    - by rewrite app_nil_r.
    - rewrite IH, insertBack_perm. cbn. apply Permutation_middle. }
  apply (Hgen []).
Qed.

Lemma strictWeakOrder_asym {A} (less : A -> A -> bool) a b :
  strictWeakOrder less -> less a b = true -> less b a = false.
Proof.
  intros (Hirr & Htrans & _) Hab.
  destruct (less b a) eqn:Hba; [|done].
  by rewrite <- (Hirr a), (Htrans a b a).
Qed.

Lemma insertBack_sorted {A} (less : A -> A -> bool) x l :
  strictWeakOrder less ->
  StronglySorted (fun a b => less a b = false) l ->
  StronglySorted (fun a b => less a b = false) (insertBack less x l).
Proof.
  intros Hswo. induction 1 as [|z zs Hzs IH Hz]; cbn.
  - by repeat constructor.
  - destruct (less x z) eqn:Hxz.
    + constructor; [done|]. rewrite insertBack_perm.
      constructor; [|done]. by apply strictWeakOrder_asym.
    + constructor; [by constructor|]. constructor; [done|].
      destruct Hswo as (_ & _ & Hneg).
      eapply Forall_impl; [exact Hz|]. intros w Hzw. by apply (Hneg x z w).
Qed.

Lemma StronglySorted_reverse {A} (R : A -> A -> Prop) l :
  StronglySorted R l -> StronglySorted (flip R) (reverse l).
Proof.
  induction 1 as [|x l Hl IH Hx]; [constructor|].
  rewrite reverse_cons. apply StronglySorted_app_2; [|done|by repeat constructor].
  intros a b Ha Hb. apply list_elem_of_singleton in Hb as ->.
  rewrite elem_of_reverse in Ha. unfold flip.
  rewrite Forall_forall in Hx. by apply Hx.
Qed.

Lemma insertionSort_sorted {A} (less : A -> A -> bool) l :
  strictWeakOrder less ->
  StronglySorted (fun a b => less b a = false) (insertionSort less l).
Proof.
  intros Hswo. unfold insertionSort.
  apply (StronglySorted_reverse (fun a b => less a b = false)).
  assert (Hgen : forall acc,
    StronglySorted (fun a b => less a b = false) acc ->
    StronglySorted (fun a b => less a b = false)
      (foldl (fun sortedRev x => insertBack less x sortedRev) acc l)).
  { induction l as [|x l IH]; intros acc Hacc; cbn; [done|].
    by apply IH, insertBack_sorted. }
  apply Hgen. constructor.
Qed.

(** A runtime whose [range] yields the entries in the order of
    [map_to_list], and one that yields them in the opposite order.  Both
    sort by insertion and leave non-ASCII strings as they are. *)
Definition forwardRuntime : GoRuntime :=
  {| rangeMap := fun V m => map_to_list m;
     rangeMap_perm := fun V m => reflexivity (map_to_list m);
     sortSlice := @insertionSort;
     sortSlice_perm := @insertionSort_perm;
     sortSlice_sorted := @insertionSort_sorted;
     lowerUnicode := fun s => s;
     upperUnicode := fun s => s |}.

Definition backwardRuntime : GoRuntime :=
  {| rangeMap := fun V m => reverse (map_to_list m);
     rangeMap_perm := fun V m => reverse_Permutation (map_to_list m);
     sortSlice := @insertionSort;
     sortSlice_perm := @insertionSort_perm;
     sortSlice_sorted := @insertionSort_sorted;
     lowerUnicode := fun s => s;
     upperUnicode := fun s => s |}.

(** The variant in country.go records the bare count: for the same call it
    stores 2 where the scorer above stores 37. *)
Lemma Country_SetRecommendations_count p songId songThemes :
  Forall (fun t => isThemeField t = true) songThemes ->
  (Z.of_nat (length songThemes) < 2 ^ 58)%Z ->
  Country.SetRecommendations p songId songThemes
  = Return (storeRecommendation p songId (Z.of_nat (matchCount p songThemes)),
            Z.of_nat (matchCount p songThemes)).
Proof.
  intros Hall Hlen. unfold Country.SetRecommendations.
  rewrite (countMatches_theme p songThemes 0 Hall); [done|lia|].
  unfold GoInt.max_int. lia.
Qed.

Example Country_SetRecommendations_example :
  Country.SetRecommendations homeAmericaUser "A" ["Home"; "America"; "Love"]
  = Return (storeRecommendation homeAmericaUser "A" 2, 2%Z).
Proof. reflexivity. Qed.

(** ** Unknown theme names *)

Lemma countMatches_total p songThemes acc :
  Forall (fun t => isThemeField t = true) songThemes ->
  returns (countMatches p songThemes acc).
Proof.
  intros Hall. revert acc.
  induction Hall as [|theme rest Htheme _ IH]; intros acc; [by eexists|].
  destruct (GetField_theme p _ Htheme) as (f & _ & _ & Hget).
  cbn [countMatches]. rewrite Hget. destruct (fieldBool p f); apply IH.
Qed.

Lemma SetRecommendations_returns_iff p songId songThemes :
  returns (SetRecommendations p songId songThemes)
  <-> Forall (fun t => isThemeField t = true) songThemes.
Proof.
  unfold SetRecommendations. split.
  - intros [a Ha].
    destruct (countMatches p songThemes 0) eqn:Hc; [|done].
    by eapply countMatches_returns.
  - intros Hall. destruct (countMatches_total p _ 0%Z Hall) as [v ->].
    by eexists.
Qed.

Lemma IsSongThemeMatch_theme p songId songThemes :
  Forall (fun t => isThemeField t = true) songThemes ->
  IsSongThemeMatch p songId songThemes
  = Return (bool_decide (0 < matchCount p songThemes)).
Proof.
  induction 1 as [|theme rest Htheme _ IH]; [done|].
  destruct (GetField_theme p _ Htheme) as (f & _ & _ & Hget).
  rewrite matchCount_cons. unfold selectedTheme.
  cbn [IsSongThemeMatch]. rewrite Hget. cbn [fst].
  destruct (fieldBool p f); [by rewrite bool_decide_eq_true_2 by lia|done].
Qed.

Lemma IsSongThemeMatch_unknown p songId before theme after :
  Forall (fun t => isThemeField t = true /\ selectedTheme p t = false) before ->
  isThemeField theme = false ->
  exists err, GetField p theme = (false, Some err) /\
    IsSongThemeMatch p songId (before ++ theme :: after) = Panic err.
Proof.
  intros Hbefore Htheme.
  destruct (GetField_not_theme p _ Htheme) as (err & Hget).
  exists err. split; [done|].
  induction Hbefore as [|t before [Ht Hsel] _ IH]; cbn [app IsSongThemeMatch].
  - by rewrite Hget.
  - destruct (GetField_theme p _ Ht) as (f & _ & _ & Hgt).
    unfold selectedTheme in Hsel. rewrite Hgt in Hsel |- *. cbn in Hsel.
    by rewrite Hsel.
Qed.

(** C3, as the code has it.  A name that is not one of the ten boolean
    fields is not read as an unselected theme: [GetField] reports an error
    and both methods panic on it.  [SetRecommendations] returns exactly
    when every name it is given is a boolean field, and panics otherwise;
    [IsSongThemeMatch] returns when every name is a boolean field, and
    panics when it meets another name before a selected theme. *)
Theorem unknown_theme_is_fatal p songId songThemes :
  (returns (SetRecommendations p songId songThemes)
   <-> Forall (fun t => isThemeField t = true) songThemes) /\
  (panics (SetRecommendations p songId songThemes)
   <-> ~ Forall (fun t => isThemeField t = true) songThemes) /\
  (Forall (fun t => isThemeField t = true) songThemes ->
   returns (IsSongThemeMatch p songId songThemes)) /\
  (forall before theme after,
     songThemes = before ++ theme :: after ->
     Forall (fun t => isThemeField t = true /\ selectedTheme p t = false)
       before ->
     isThemeField theme = false ->
     panics (IsSongThemeMatch p songId songThemes)).
Proof.
  split_and!.
  - apply SetRecommendations_returns_iff.
  - rewrite <- (SetRecommendations_returns_iff p songId).
    destruct (SetRecommendations p songId songThemes) as [a|err]; split.
    + intros [e He]. done.
    + intros Hnot. exfalso. apply Hnot. unfold returns. eauto.
    + intros _ [a Ha]. done.
    + intros _. unfold panics. eauto.
  - intros Hall. rewrite IsSongThemeMatch_theme by done. by eexists.
  - intros before theme after -> Hbefore Htheme.
    destruct (IsSongThemeMatch_unknown p songId before theme after
                Hbefore Htheme) as (err & _ & Hpanic).
    by exists err.
Qed.

(** The catalog key [heartbreak] becomes the name [Heartbreak], which is no
    field ([HeartBreak] is), and both methods panic on it. *)
Lemma unknown_theme_counterexample :
  @themeNames forwardRuntime heartbreakDoc = ["Heartbreak"] /\
  isThemeField "Heartbreak" = false /\
  IsSongThemeMatch homeAmericaUser "10001" ["Heartbreak"]
  = Panic "field 'Heartbreak' does not exist" /\
  SetRecommendations homeAmericaUser "10001" ["Heartbreak"]
  = Panic "field 'Heartbreak' does not exist".
Proof. by vm_compute. Qed.

(** ** A lower bound on recorded scores *)

Lemma theme_in_vocabulary name :
  isThemeField name = true -> name ∈ vocabulary.
Proof.
  intros Hname.
  destruct (GetField_theme homeAmericaUser _ Hname) as (f & Hf & <- & _).
  unfold vocabulary. by apply list_elem_of_fmap_2.
Qed.

Lemma distinct_themes_at_most_ten songThemes :
  Forall (fun t => isThemeField t = true) songThemes ->
  NoDup songThemes ->
  length songThemes <= 10.
Proof.
  intros Hall Hnodup.
  change 10 with (length vocabulary).
  apply submseteq_length, NoDup_submseteq; [done|].
  intros name Hname. apply theme_in_vocabulary.
  rewrite Forall_forall in Hall. by apply Hall.
Qed.

Lemma fired_rule_score p songId songThemes :
  Forall (fun t => isThemeField t = true) songThemes ->
  NoDup songThemes ->
  IsSongThemeMatch p songId songThemes = Return true ->
  exists v, (10 <= v)%Z /\
    SetRecommendations p songId songThemes
    = Return (storeRecommendation p songId v, v).
Proof.
  intros Hall Hnodup Hmatch.
  pose proof (distinct_themes_at_most_ten _ Hall Hnodup) as Hlen.
  rewrite IsSongThemeMatch_theme in Hmatch by done.
  injection Hmatch as Hmatch. apply bool_decide_eq_true_1 in Hmatch.
  eexists. split; [|apply SetRecommendations_theme; [done|lia]].
  lia.
Qed.

Lemma fireRule_keeps_bound p r :
  Forall (fun t => isThemeField t = true) (ruleSongThemes r) ->
  NoDup (ruleSongThemes r) ->
  map_Forall (fun _ v => (10 <= v)%Z) (Recommendations p) ->
  exists p', fireRule p r = Return p' /\
    map_Forall (fun _ v => (10 <= v)%Z) (Recommendations p').
Proof.
  intros Hall Hnodup Hinv. unfold fireRule.
  destruct (IsSongThemeMatch p (ruleSongId r) (ruleSongThemes r))
    as [[|]|err] eqn:Hmatch.
  - destruct (fired_rule_score p _ _ Hall Hnodup Hmatch) as (v & Hv & ->).
    eexists. split; [done|]. cbn. by apply map_Forall_insert_2.
  - by exists p.
  - rewrite IsSongThemeMatch_theme in Hmatch by done. done.
Qed.

(** C9, as the code has it.  When every rule passes names of boolean fields
    and no rule passes the same name twice, the evaluation completes and
    every value in the score map is at least 10 afterwards, provided that
    held before (as it does for the empty map a request starts from).
    Without the second condition the bound fails: a theme count above ten
    is then possible. *)
Theorem recorded_scores_at_least_ten p rules :
  Forall (fun r => Forall (fun t => isThemeField t = true) (ruleSongThemes r)
                   /\ NoDup (ruleSongThemes r)) rules ->
  map_Forall (fun _ v => (10 <= v)%Z) (Recommendations p) ->
  exists p', evaluate p rules = Return p' /\
    map_Forall (fun _ v => (10 <= v)%Z) (Recommendations p').
Proof.
  intros Hrules. revert p.
  induction Hrules as [|r rules [Hall Hnodup] _ IH]; intros p Hinv.
  - by exists p.
  - destruct (fireRule_keeps_bound p r Hall Hnodup Hinv) as (p1 & Hfire & Hinv1).
    cbn [evaluate]. rewrite Hfire. by apply IH.
Qed.

Lemma recorded_scores_at_least_ten_witness :
  exists p',
    evaluate homeAmericaUser
      [ {| ruleSongId := "A"; ruleSongThemes := ["Home"; "America"; "Love"] |};
        {| ruleSongId := "B"; ruleSongThemes := ["Love"] |} ]
    = Return p' /\
    map_Forall (fun _ v => (10 <= v)%Z) (Recommendations p').
Proof.
  apply recorded_scores_at_least_ten.
  - repeat constructor; by apply (bool_decide_unpack _).
  - apply map_Forall_empty.
Defined.

(** The rule of [crowdedDoc] passes eleven names, each a boolean field; the
    user selected one of them, and the score recorded is 9. *)
Lemma recorded_scores_counterexample :
  Forall (fun t => isThemeField t = true) (@themeNames forwardRuntime crowdedDoc) /\
  length (@themeNames forwardRuntime crowdedDoc) = 11 /\
  exists p',
    evaluate homeAmericaUser [@documentRule forwardRuntime crowdedDoc]
    = Return p' /\
    Recommendations p' !! "10002" = Some 9%Z.
Proof.
  split_and!.
  - apply Forall_forall. intros t Ht. vm_compute in Ht.
    repeat (apply elem_of_cons in Ht as [->|Ht]; [reflexivity|]).
    by apply elem_of_nil in Ht.
  - reflexivity.
  - eexists. split; [vm_compute; reflexivity|reflexivity].
Qed.

(** ** The rule text *)

Lemma string_app_assoc (a b c : string) : (a +:+ b) +:+ c = a +:+ b +:+ c.
Proof.
  induction a as [|x a IH]; [done|].
  change (String x ((a +:+ b) +:+ c) = String x (a +:+ b +:+ c)).
  by rewrite IH.
Qed.

Lemma string_app_nil_r (a : string) : a +:+ EmptyString = a.
Proof.
  induction a as [|x a IH]; [done|].
  change (String x (a +:+ EmptyString) = String x a). by rewrite IH.
Qed.

Lemma contains_prefix sub post : contains (sub +:+ post) sub.
Proof. by exists EmptyString, post. Qed.

Lemma contains_self s : contains s s.
Proof.
  exists EmptyString, EmptyString.
  change (s = s +:+ EmptyString). by rewrite string_app_nil_r.
Qed.

Lemma contains_trans s t u : contains s t -> contains t u -> contains s u.
Proof.
  intros (p1 & q1 & ->) (p2 & q2 & ->).
  exists (p1 +:+ p2), (q2 +:+ q1). by rewrite !string_app_assoc.
Qed.

Lemma contains_app_r s t sub : contains t sub -> contains (s +:+ t) sub.
Proof.
  intros (pre & post & ->). exists (s +:+ pre), post.
  by rewrite !string_app_assoc.
Qed.

Lemma Join_contains elems sep e : e ∈ elems -> contains (Join elems sep) e.
Proof.
  induction elems as [|x rest IH]; intros He; [by apply elem_of_nil in He|].
  cbn [Join]. destruct rest as [|y rest].
  - apply list_elem_of_singleton in He as ->. apply contains_self.
  - apply elem_of_cons in He as [->|He].
    + apply contains_prefix.
    + by apply contains_app_r, contains_app_r, IH.
Qed.

Lemma ruleFormat_header `{GoRuntime} (document : CountryMusicDocument) :
  exists rest, ruleText document = ruleHeader document +:+ rest.
Proof.
  unfold ruleText, ruleFormat, ruleHeader. eexists.
  rewrite !string_app_assoc. reflexivity.
Qed.

Lemma extractGrules_contains_ruleText `{GoRuntime} documents d :
  d ∈ documents -> contains (extractGrules documents) (ruleText d).
Proof.
  intros Hd. unfold extractGrules. apply Join_contains.
  by apply list_elem_of_fmap_2.
Qed.

(** ** Documents without themes *)

Lemma themeNames_themeless `{GoRuntime} (document : CountryMusicDocument) :
  (forall k v, Themes document !! k = Some v -> v = EmptyString) ->
  themeNames document = [].
Proof.
  intros Hempty. unfold themeNames.
  assert (Hall : Forall (fun kv : string * string => kv.2 = EmptyString)
                   (rangeMap (Themes document))).
  { apply Forall_forall. intros [k v] Hkv. cbn.
    rewrite rangeMap_perm in Hkv. apply elem_of_map_to_list in Hkv.
    by eapply Hempty. }
  induction Hall as [|kv l Hkv _ IH]; [done|].
  by rewrite filter_cons_False by (intros Hne; by apply Hne).
Qed.

Lemma ruleText_themeless `{GoRuntime} (document : CountryMusicDocument) :
  (forall k v, Themes document !! k = Some v -> v = EmptyString) ->
  ruleText document
  = ruleFormat (RuleID document) (Title document)
      (quoted (RuleID document)) EmptyString
      (quoted (RuleID document)) EmptyString
      (RuleID document).
Proof.
  intros Hempty. unfold ruleText, quotedThemes.
  by rewrite themeNames_themeless.
Qed.

(** C4.  The rule compiler does not skip a document without themes: under
    every runtime the text generated for the catalog that holds only
    [themelessDoc] is one rule whose two calls have nothing after the
    comma. *)
Theorem themeless_document_gets_rule `{GoRuntime} :
  extractGrules [themelessDoc]
  = "rule Check10000 " +:+ dq +:+ "T" +:+ dq +:+ " salience 10 {" +:+ nl +:+
    "            when" +:+ nl +:+
    "               UserSelections.IsSongThemeMatch(" +:+ dq +:+ "10000" +:+ dq +:+ ", )" +:+ nl +:+
    "            then" +:+ nl +:+
    "               UserSelections.SetRecommendations(" +:+ dq +:+ "10000" +:+ dq +:+ ", );" +:+ nl +:+
    "               Retract(" +:+ dq +:+ "Check10000" +:+ dq +:+ ");" +:+ nl +:+
    "        }".
Proof.
  unfold extractGrules. cbn [fmap list_fmap Join].
  rewrite ruleText_themeless; [reflexivity|].
  intros k v Hkv.
  change (Themes themelessDoc) with (∅ : gmap string string) in Hkv.
  by rewrite lookup_empty in Hkv.
Qed.

(** Were such a rule run, its condition would be false and nothing would be
    recorded. *)
Lemma themeless_rule_never_scores p songId :
  fireRule p {| ruleSongId := songId; ruleSongThemes := [] |} = Return p.
Proof. reflexivity. Qed.

(** ** Selection *)

Lemma byValueDescending_strictWeakOrder : strictWeakOrder byValueDescending.
Proof.
  unfold strictWeakOrder, byValueDescending.
  split_and!; intros; rewrite ?Z.ltb_lt, ?Z.ltb_ge in *; lia.
Qed.

Section selection.
Context `{GoRuntime}.
Variable recommendations : gmap string Z.

(** [sortedList] after the call of [sort.Slice]. *)
Let sortedList : list entry :=
  sortSlice byValueDescending (toEntry <$> rangeMap recommendations).

Lemma sortedList_perm :
  sortedList ≡ₚ toEntry <$> map_to_list recommendations.
Proof. unfold sortedList. by rewrite sortSlice_perm, rangeMap_perm. Qed.

Lemma sortedList_length : length sortedList = size recommendations.
Proof.
  by rewrite sortedList_perm, length_fmap, length_map_to_list.
Qed.

Lemma sortedList_sorted :
  StronglySorted (fun a b => (Value b <= Value a)%Z) sortedList.
Proof.
  pose proof (sortSlice_sorted _ byValueDescending
                (toEntry <$> rangeMap recommendations)
                byValueDescending_strictWeakOrder) as Hsorted.
  fold sortedList in Hsorted.
  eapply (StronglySorted_fmap id) in Hsorted; [by rewrite list_fmap_id in Hsorted|].
  intros a b. unfold byValueDescending. cbn. by rewrite Z.ltb_ge.
Qed.

Lemma sortedList_elem e :
  e ∈ sortedList <-> recommendations !! Key e = Some (Value e).
Proof.
  rewrite sortedList_perm, list_elem_of_fmap. split.
  - intros ([k v] & -> & Hkv). by apply elem_of_map_to_list in Hkv.
  - intros He. exists (Key e, Value e). split; [by destruct e|].
    by apply elem_of_map_to_list.
Qed.

Lemma sortedList_keys_NoDup : NoDup (Key <$> sortedList).
Proof.
  rewrite sortedList_perm, <- list_fmap_compose.
  apply (NoDup_fst_map_to_list recommendations).
Qed.

Lemma getTopNRecommendations_take (N : Z) :
  (0 <= N)%Z ->
  getTopNRecommendations recommendations N
  = Return (Key <$> take (Z.to_nat N) sortedList).
Proof.
  intros HN. unfold getTopNRecommendations. fold toEntry. fold sortedList.
  destruct (Z.ltb_spec (Z.of_nat (length sortedList)) N) as [Hlt|Hge].
  - rewrite (proj2 (Z.ltb_ge _ 0)) by lia.
    rewrite Nat2Z.id, firstn_all, take_ge by lia. done.
  - by rewrite (proj2 (Z.ltb_ge N 0)).
Qed.

Lemma getTopNRecommendations_negative (N : Z) :
  (N < 0)%Z -> panics (getTopNRecommendations recommendations N).
Proof.
  intros HN. unfold getTopNRecommendations.
  match goal with |- context [Z.ltb ?a N] => destruct (Z.ltb_spec a N); [lia|] end.
  rewrite (proj2 (Z.ltb_lt N 0)) by done. by eexists.
Qed.
End selection.

Lemma StronglySorted_restrict {A} (R : A -> A -> Prop) (P : A -> Prop) l :
  StronglySorted R l -> Forall P l ->
  StronglySorted (fun a b => R a b /\ P a /\ P b) l.
Proof.
  induction 1 as [|x l Hl IH Hx]; intros HP; [constructor|].
  apply Forall_cons in HP as [HPx HPl].
  constructor; [by apply IH|].
  rewrite Forall_forall in Hx, HPl |- *. intros y Hy. split_and!; auto.
Qed.

(** C6.  For a count [N] that is not negative, [getTopNRecommendations]
    returns, and the number of identifiers it returns is the smaller of [N]
    and the number of scored documents; when no more than [N] documents
    have a score, the identifiers returned are exactly the scored ones. *)
Theorem getTopNRecommendations_length `{GoRuntime}
    (recommendations : gmap string Z) (N : Z) :
  (0 <= N)%Z ->
  exists topRuleIDs,
    getTopNRecommendations recommendations N = Return topRuleIDs /\
    Z.of_nat (length topRuleIDs) = Z.min N (Z.of_nat (size recommendations)) /\
    ((Z.of_nat (size recommendations) <= N)%Z ->
     forall id, id ∈ topRuleIDs <-> is_Some (recommendations !! id)).
Proof.
  intros HN. eexists. split; [by apply getTopNRecommendations_take|].
  pose proof (sortedList_length recommendations) as Hlen.
  split.
  - rewrite length_fmap, length_take, Hlen. lia.
  - intros Hfew id. rewrite take_ge by lia.
    rewrite list_elem_of_fmap. split.
    + intros (e & -> & He). apply sortedList_elem in He. by eexists.
    + intros [v Hv]. exists {| Key := id; Value := v |}.
      split; [done|]. by apply sortedList_elem.
Qed.

Lemma getTopNRecommendations_length_witness :
  exists topRuleIDs,
    @getTopNRecommendations forwardRuntime scenarioScores 3
    = Return topRuleIDs /\
    length topRuleIDs = 2 /\
    (forall id, id ∈ topRuleIDs <-> is_Some (scenarioScores !! id)).
Proof.
  destruct (@getTopNRecommendations_length forwardRuntime scenarioScores 3)
    as (topRuleIDs & Hreturn & Hlength & Hall).
  - lia.
  - exists topRuleIDs. split_and!; [exact Hreturn| |].
    + apply Nat2Z.inj. rewrite Hlength. reflexivity.
    + apply Hall. vm_compute. discriminate.
Defined.

(** C5, as the code has it.  For a count that is not negative the
    identifiers come out without repetition and in order of falling score:
    each has a score, none scores less than one that follows it, and none
    scores less than a scored document that was left out.  Nothing ties the
    order of equal scores to the catalog: the function sees the score map
    alone. *)
Theorem getTopNRecommendations_descending `{GoRuntime}
    (recommendations : gmap string Z) (N : Z) :
  (0 <= N)%Z ->
  exists topRuleIDs,
    getTopNRecommendations recommendations N = Return topRuleIDs /\
    NoDup topRuleIDs /\
    StronglySorted
      (fun a b => exists va vb,
         recommendations !! a = Some va /\ recommendations !! b = Some vb /\
         (vb <= va)%Z)
      topRuleIDs /\
    (forall a b va vb,
       a ∈ topRuleIDs -> b ∉ topRuleIDs ->
       recommendations !! a = Some va -> recommendations !! b = Some vb ->
       (vb <= va)%Z).
Proof.
  intros HN. eexists. split; [by apply getTopNRecommendations_take|].
  set (sortedList := sortSlice byValueDescending (toEntry <$> rangeMap recommendations)).
  pose proof (sortedList_sorted recommendations) as Hsorted.
  pose proof (sortedList_keys_NoDup recommendations) as Hnodup.
  fold sortedList in Hsorted, Hnodup.
  rewrite <- (take_drop (Z.to_nat N) sortedList) in Hsorted, Hnodup.
  assert (Hin : forall e, e ∈ take (Z.to_nat N) sortedList ->
                          recommendations !! Key e = Some (Value e)).
  { intros e He. apply sortedList_elem. fold sortedList.
    rewrite <- (take_drop (Z.to_nat N) sortedList). set_solver. }
  apply StronglySorted_app in Hsorted as (Hcross & Htake & _).
  rewrite fmap_app in Hnodup. apply NoDup_app in Hnodup as (Hnd & Hdisj & _).
  split_and!.
  - done.
  - pose proof (StronglySorted_restrict _
        (fun e => recommendations !! Key e = Some (Value e)) _ Htake
        (proj2 (Forall_forall _ _) Hin)) as Hkeyed.
    eapply StronglySorted_fmap; [|exact Hkeyed].
    intros a b (Hab & Ha & Hb). exists (Value a), (Value b). eauto.
  - intros a b va vb Ha Hb Hva Hvb.
    apply list_elem_of_fmap in Ha as (ea & -> & Hea).
    assert (Heb : {| Key := b; Value := vb |} ∈ sortedList).
    { by apply sortedList_elem. }
    rewrite <- (take_drop (Z.to_nat N) sortedList) in Heb.
    apply elem_of_app in Heb as [Heb|Heb].
    + destruct Hb. apply list_elem_of_fmap. by eexists; split; [|exact Heb].
    + rewrite (Hin _ Hea) in Hva. injection Hva as <-.
      apply (Hcross _ _ Hea Heb).
Qed.

Lemma getTopNRecommendations_descending_witness :
  exists topRuleIDs,
    @getTopNRecommendations forwardRuntime tieScores 3 = Return topRuleIDs /\
    NoDup topRuleIDs /\
    StronglySorted
      (fun a b => exists va vb,
         tieScores !! a = Some va /\ tieScores !! b = Some vb /\ (vb <= va)%Z)
      topRuleIDs /\
    (forall a b va vb,
       a ∈ topRuleIDs -> b ∉ topRuleIDs ->
       tieScores !! a = Some va -> tieScores !! b = Some vb ->
       (vb <= va)%Z).
Proof.
  apply (@getTopNRecommendations_descending forwardRuntime tieScores 3). lia.
Defined.

(** [tieDocA] stands before [tieDocB] in the catalog and both score 19.
    A runtime whose [range] yields [B] first returns [B] before [A]; one
    whose [range] yields [A] first returns [A] before [B]. *)
Lemma tie_order_counterexample :
  (exists p',
     evaluate homeAmericaUser
       (@documentRule backwardRuntime <$> [tieDocA; tieDocB]) = Return p' /\
     Recommendations p' = tieScores) /\
  @getTopNRecommendations backwardRuntime tieScores 3 = Return ["B"; "A"] /\
  @getTopNRecommendations forwardRuntime tieScores 3 = Return ["A"; "B"].
Proof.
  split_and!; [eexists; split|..]; by vm_compute.
Qed.

(** ** The order of the response *)

Lemma ruleIDMap_lookup (ids : list string) (acc : gmap string bool) id :
  foldl (fun m id => <[id := true]> m) acc ids !! id = Some true
  <-> id ∈ ids \/ acc !! id = Some true.
Proof.
  revert acc. induction ids as [|x ids IH]; intros acc; cbn [foldl].
  - split; [by right|]. intros [Hin|Hacc]; [|done].
    by apply elem_of_nil in Hin.
  - rewrite IH, elem_of_cons. destruct (decide (x = id)) as [->|Hne].
    + rewrite lookup_insert_eq. tauto.
    + rewrite lookup_insert_ne by done.
      split; [tauto|]. intros [[Heq|Hin]|Hacc]; [congruence|tauto..].
Qed.

Lemma filterDocuments_filter documents topRuleIDs :
  filterDocuments documents topRuleIDs
  = filter (fun doc => RuleID doc ∈ topRuleIDs) documents.
Proof.
  unfold filterDocuments. apply list_filter_iff. intros doc.
  destruct (foldl _ _ _ !! RuleID doc) as [b|] eqn:Hlook; cbn.
  - destruct b.
    + apply ruleIDMap_lookup in Hlook as [Hin|Hempty]; [done|].
      by rewrite lookup_empty in Hempty.
    + split; [done|]. intros Hin.
      assert (Htrue : foldl (fun m id => <[id := true]> m)
                        (∅ : gmap string bool) topRuleIDs !! RuleID doc
                      = Some true) by (apply ruleIDMap_lookup; by left).
      congruence.
  - split; [done|]. intros Hin.
    assert (Htrue : foldl (fun m id => <[id := true]> m)
                      (∅ : gmap string bool) topRuleIDs !! RuleID doc
                    = Some true) by (apply ruleIDMap_lookup; by left).
    congruence.
Qed.

Lemma generateThemeUpdatedDocs_RuleID `{GoRuntime} docs userSelections :
  RuleID <$> generateThemeUpdatedDocs docs userSelections = RuleID <$> docs.
Proof.
  unfold generateThemeUpdatedDocs. rewrite <- list_fmap_compose.
  by apply list_fmap_ext.
Qed.

Lemma filter_RuleID (topRuleIDs : list string)
    (documents : list CountryMusicDocument) :
  RuleID <$> filter (fun doc => RuleID doc ∈ topRuleIDs) documents
  = filter (fun id => id ∈ topRuleIDs) (RuleID <$> documents).
Proof.
  induction documents as [|doc documents IH]; [done|].
  rewrite fmap_cons, !filter_cons. case_decide; by rewrite ?fmap_cons, IH.
Qed.

(** C2, as the code has it.  The response lists the catalog's documents
    whose identifier is among the selected ones, each redacted, in the order
    of the catalog; the order in which [getTopNRecommendations] ranked the
    identifiers is not used.  Redaction keeps the order it is given. *)
Theorem response_in_catalog_order `{GoRuntime}
    (documents : list CountryMusicDocument) (userSelections : UserSelections) :
  (exists topRuleIDs response,
     getTopNRecommendations (Recommendations userSelections) 3
     = Return topRuleIDs /\
     filterDocumentsByRecommendations documents userSelections
     = Return response /\
     response
     = generateThemeUpdatedDocs
         (filter (fun doc => RuleID doc ∈ topRuleIDs) documents)
         userSelections /\
     RuleID <$> response
     = filter (fun id => id ∈ topRuleIDs) (RuleID <$> documents)) /\
  (forall docs,
     RuleID <$> generateThemeUpdatedDocs docs userSelections = RuleID <$> docs).
Proof.
  split; [|intros docs; apply generateThemeUpdatedDocs_RuleID].
  pose proof (getTopNRecommendations_take (Recommendations userSelections) 3)
    as Htop.
  eexists. eexists. split; [by apply Htop|].
  unfold filterDocumentsByRecommendations. rewrite Htop by done.
  rewrite filterDocuments_filter. split_and!; [done..|].
  rewrite generateThemeUpdatedDocs_RuleID.
  apply filter_RuleID.
Qed.

(** [twoThemeDoc] (score 18) stands before [oneThemeDoc] (score 19) in the
    catalog.  The selection ranks [B] before [A]; the response lists [A]
    before [B]. *)
Lemma response_order_counterexample :
  exists p' response,
    evaluate homeAmericaUser
      (@documentRule forwardRuntime <$> [twoThemeDoc; oneThemeDoc])
    = Return p' /\
    Recommendations p' = <["A" := 18%Z]> (<["B" := 19%Z]> ∅) /\
    @getTopNRecommendations forwardRuntime (Recommendations p') 3
    = Return ["B"; "A"] /\
    @filterDocumentsByRecommendations forwardRuntime
      [twoThemeDoc; oneThemeDoc] p'
    = Return response /\
    RuleID <$> response = ["A"; "B"].
Proof.
  do 2 eexists. split_and!; [by vm_compute|by vm_compute|by vm_compute| |].
  - vm_compute. reflexivity.
  - reflexivity.
Qed.

(** ** Redaction *)

Lemma document_eq (d1 d2 : CountryMusicDocument) :
  RuleID d1 = RuleID d2 -> Artist d1 = Artist d2 -> Title d1 = Title d2 ->
  LyricQuote d1 = LyricQuote d2 -> VideoLink d1 = VideoLink d2 ->
  Themes d1 = Themes d2 -> d1 = d2.
Proof. destruct d1, d2. cbn. by intros -> -> -> -> -> ->. Qed.

Section redaction.
Context `{GoRuntime}.
Variable userSelections : UserSelections.

Lemma themeKeys_entries :
  themeKeys userSelections
  = <["rebellion" := Rebellion userSelections]>
      (<["lessons" := Lessons userSelections]>
      (<["heartbreak" := HeartBreak userSelections]>
      (<["love" := Love userSelections]>
      (<["home" := Home userSelections]>
      (<["grit" := Grit userSelections]>
      (<["goodtimes" := Goodtimes userSelections]>
      (<["carstruckstractors" := CarsTrucksTractors userSelections]>
      (<["america" := America userSelections]>
      (<["adventure" := Adventure userSelections]> ∅))))))))).
Proof. reflexivity. Qed.

Lemma userSelected_cases key :
  userSelected userSelections key
  = (String.eqb "adventure" (ToLower key) && Adventure userSelections)
    || ((String.eqb "america" (ToLower key) && America userSelections)
    || ((String.eqb "carstruckstractors" (ToLower key)
         && CarsTrucksTractors userSelections)
    || ((String.eqb "goodtimes" (ToLower key) && Goodtimes userSelections)
    || ((String.eqb "grit" (ToLower key) && Grit userSelections)
    || ((String.eqb "home" (ToLower key) && Home userSelections)
    || ((String.eqb "love" (ToLower key) && Love userSelections)
    || ((String.eqb "heartbreak" (ToLower key) && HeartBreak userSelections)
    || ((String.eqb "lessons" (ToLower key) && Lessons userSelections)
    || ((String.eqb "rebellion" (ToLower key) && Rebellion userSelections)
    || false))))))))).
Proof. reflexivity. Qed.

(** The lookup in [themeKeys] decides exactly [userSelected]. *)
Lemma themeKeys_lookup key :
  default false (themeKeys userSelections !! ToLower key)
  = userSelected userSelections key.
Proof.
  rewrite themeKeys_entries, userSelected_cases.
  generalize (ToLower key) as k. intros k.
  repeat match goal with
  | |- context [String.eqb ?c k] =>
      destruct (String.eqb_spec c k) as [<-|?]
  end;
  rewrite ?lookup_insert_eq, ?lookup_insert_ne by done;
  cbn; by rewrite ?orb_false_r.
Qed.

Lemma updateTheme_insert updatedThemes kv :
  updateTheme (themeKeys userSelections) updatedThemes kv
  = <[kv.1 := redactedValue userSelections kv.1 kv.2]> updatedThemes.
Proof.
  unfold updateTheme, redactedValue. rewrite themeKeys_lookup.
  by destruct (userSelected userSelections kv.1).
Qed.

Lemma foldl_updateTheme_lookup (l : list (string * string))
    (updatedThemes : gmap string string) key :
  NoDup l.*1 ->
  foldl (updateTheme (themeKeys userSelections)) updatedThemes l !! key
  = match (list_to_map l : gmap string string) !! key with
    | Some value => Some (redactedValue userSelections key value)
    | None => updatedThemes !! key
    end.
Proof.
  revert updatedThemes.
  induction l as [|[k v] l IH]; intros updatedThemes Hnodup; [done|].
  apply NoDup_cons in Hnodup as [Hk Hnodup].
  cbn [foldl]. rewrite IH, updateTheme_insert by done. cbn.
  destruct (decide (k = key)) as [->|Hne].
  - rewrite lookup_insert_eq.
    by rewrite (not_elem_of_list_to_map_1 _ _ Hk), lookup_insert_eq.
  - rewrite (lookup_insert_ne (list_to_map l)) by done.
    destruct (list_to_map l !! key); [done|].
    by rewrite lookup_insert_ne.
Qed.

Lemma themeUpdatedDoc_lookup (doc : CountryMusicDocument) key :
  Themes (themeUpdatedDoc (themeKeys userSelections) doc) !! key
  = redactedValue userSelections key <$> Themes doc !! key.
Proof.
  cbn [themeUpdatedDoc Themes].
  rewrite foldl_updateTheme_lookup.
  2:{ rewrite rangeMap_perm. apply NoDup_fst_map_to_list. }
  rewrite <- (list_to_map_flip (Themes doc) (rangeMap (Themes doc)))
    by (by rewrite rangeMap_perm).
  by destruct (Themes doc !! key).
Qed.

Lemma redactedValue_twice key value :
  redactedValue userSelections key (redactedValue userSelections key value)
  = redactedValue userSelections key value.
Proof. unfold redactedValue. by destruct (userSelected userSelections key). Qed.

Lemma themeUpdatedDoc_twice (doc : CountryMusicDocument) :
  themeUpdatedDoc (themeKeys userSelections)
    (themeUpdatedDoc (themeKeys userSelections) doc)
  = themeUpdatedDoc (themeKeys userSelections) doc.
Proof.
  assert (Hthemes :
    Themes (themeUpdatedDoc (themeKeys userSelections)
              (themeUpdatedDoc (themeKeys userSelections) doc))
    = Themes (themeUpdatedDoc (themeKeys userSelections) doc)).
  { apply map_eq. intros key. rewrite !themeUpdatedDoc_lookup.
    destruct (Themes doc !! key); [|done]. cbn.
    by rewrite redactedValue_twice. }
  by apply document_eq.
Qed.
End redaction.

(** C7.  Redaction returns one document per input document, in the same
    order; each has the identifier and display fields of its input, the
    same theme keys, and under each key the input's value when the user
    selected the theme of that name (letter case aside) and the empty
    string otherwise. *)
Theorem redaction_keeps_selected `{GoRuntime}
    (filteredDocs : list CountryMusicDocument) (userSelections : UserSelections) :
  Forall2
    (fun doc out =>
       RuleID out = RuleID doc /\ Artist out = Artist doc /\
       Title out = Title doc /\ LyricQuote out = LyricQuote doc /\
       VideoLink out = VideoLink doc /\
       dom (Themes out) = dom (Themes doc) /\
       (forall key value,
          Themes doc !! key = Some value ->
          Themes out !! key
          = Some (if userSelected userSelections key then value
                  else EmptyString)))
    filteredDocs (generateThemeUpdatedDocs filteredDocs userSelections).
Proof.
  unfold generateThemeUpdatedDocs. apply Forall2_fmap_r, Forall_Forall2_diag.
  apply Forall_forall. intros doc _. split_and!; try reflexivity.
  - apply set_eq. intros key. rewrite !elem_of_dom, themeUpdatedDoc_lookup.
    apply fmap_is_Some.
  - intros key value Hvalue. by rewrite themeUpdatedDoc_lookup, Hvalue.
Qed.

(** C8.  Redacting the redacted documents again, for the same user, changes
    nothing. *)
Theorem redaction_idempotent `{GoRuntime}
    (filteredDocs : list CountryMusicDocument) (userSelections : UserSelections) :
  generateThemeUpdatedDocs
    (generateThemeUpdatedDocs filteredDocs userSelections) userSelections
  = generateThemeUpdatedDocs filteredDocs userSelections.
Proof.
  unfold generateThemeUpdatedDocs. rewrite <- list_fmap_compose.
  apply list_fmap_ext. intros i doc _. apply themeUpdatedDoc_twice.
Qed.

Example redaction_scenario :
  Themes <$> @generateThemeUpdatedDocs forwardRuntime [scenarioDoc] homeAmericaUser
  = [list_to_map [("Home", "x"); ("america", "y"); ("love", EmptyString)]].
Proof. by vm_compute. Qed.

(** * Further properties *)

(** ** Field lookup and the three spellings of a theme *)

(** X1.  [GetField] answers in one of three ways: for the exact name of one
    of the ten boolean fields it returns the user's flag and no error; for
    [Recommendations] it reports that the field is not a boolean; for every
    other string, whatever its letter case, that the field does not
    exist. *)
Theorem GetField_cases p name :
  (exists f, f ∈ themeFields /\ name = nameOfField f /\
             GetField p name = (fieldBool p f, None)) \/
  (name = "Recommendations" /\
   GetField p name
   = (false, Some "field 'Recommendations' is not a boolean")) \/
  ((name ∉ nameOfField <$> allFields) /\
   GetField p name
   = (false, Some ("field '" +:+ name +:+ "' does not exist"))).
Proof.
  unfold GetField. destruct (FieldByName name) as [f|] eqn:Hf.
  - apply FieldByName_Some in Hf as <-.
    destruct f; first [ left; eexists; split_and!; [|reflexivity..];
                        unfold themeFields; set_solver
                      | right; left; by split ].
  - right. right. split; [|done].
    intros Hin. apply list_elem_of_fmap in Hin as (f & -> & _).
    by rewrite FieldByName_nameOfField in Hf.
Qed.

(** X2.  A theme has three spellings in the program: the field name, the
    key the request decoder reads, and the lower-case key of the redaction.
    No decoder key is a field name; capitalising the first letter of a
    decoder key gives the field name for every theme but [HeartBreak]; and
    a decoder key and its field name agree once both are lower-cased. *)
Theorem theme_spellings `{GoRuntime} :
  Forall
    (fun f =>
       isThemeField (requestKey f) = false /\
       (capitalizeFirstLetter (requestKey f) = nameOfField f
        <-> f <> FHeartBreak) /\
       ToLower (requestKey f) = ToLower (nameOfField f))
    themeFields.
Proof.
  unfold themeFields.
  repeat constructor; try reflexivity; try discriminate; done.
Qed.

(** ** The methods read the flags only *)

Lemma GetField_sameFlags p q name :
  sameFlags p q -> GetField p name = GetField q name.
Proof.
  intros Hpq. unfold GetField. destruct (FieldByName name) as [f|]; [|done].
  destruct (fieldKind f); [|done]. by rewrite (Hpq f).
Qed.

Lemma IsSongThemeMatch_sameFlags p q songId songThemes :
  sameFlags p q ->
  IsSongThemeMatch p songId songThemes = IsSongThemeMatch q songId songThemes.
Proof.
  intros Hpq. induction songThemes as [|theme rest IH]; [done|].
  cbn [IsSongThemeMatch]. rewrite (GetField_sameFlags p q theme Hpq).
  destruct (GetField q theme) as [[|] [err|]]; done.
Qed.

Lemma countMatches_sameFlags p q songThemes acc :
  sameFlags p q ->
  countMatches p songThemes acc = countMatches q songThemes acc.
Proof.
  intros Hpq. revert acc. induction songThemes as [|theme rest IH]; [done|].
  intros acc. cbn [countMatches]. rewrite (GetField_sameFlags p q theme Hpq).
  destruct (GetField q theme) as [[|] [err|]]; done.
Qed.

Lemma matchCount_sameFlags p q songThemes :
  sameFlags p q -> matchCount p songThemes = matchCount q songThemes.
Proof.
  intros Hpq. induction songThemes as [|theme rest IH]; [done|].
  rewrite !matchCount_cons, IH. unfold selectedTheme.
  by rewrite (GetField_sameFlags p q theme Hpq).
Qed.

Lemma storeRecommendation_sameFlags p songId v :
  sameFlags p (storeRecommendation p songId v).
Proof. intros f. by destruct f. Qed.

Lemma sameFlags_trans p q r : sameFlags p q -> sameFlags q r -> sameFlags p r.
Proof. intros Hpq Hqr f. by rewrite (Hpq f). Qed.

Lemma sameFlags_sym p q : sameFlags p q -> sameFlags q p.
Proof. intros Hpq f. by rewrite (Hpq f). Qed.

Lemma fireRule_returns p r p' :
  fireRule p r = Return p' ->
  p' = p \/ exists v, p' = storeRecommendation p (ruleSongId r) v.
Proof.
  unfold fireRule, SetRecommendations.
  destruct (IsSongThemeMatch p (ruleSongId r) (ruleSongThemes r)) as [[|]|];
    [|intros [= <-]; by left..].
  destruct (countMatches p (ruleSongThemes r) 0); [|done].
  intros [= <-]. right. by eexists.
Qed.

Lemma fireRule_sameFlags p r p' : fireRule p r = Return p' -> sameFlags p p'.
Proof.
  intros Hfire. apply fireRule_returns in Hfire as [->|[v ->]]; [done|].
  apply storeRecommendation_sameFlags.
Qed.

Lemma matchCount_perm p songThemes songThemes' :
  songThemes ≡ₚ songThemes' ->
  matchCount p songThemes = matchCount p songThemes'.
Proof. intros Hperm. unfold matchCount. by rewrite Hperm. Qed.

(** X3.  The order in which a rule lists its themes does not matter: when
    every name is a boolean field, two lists that are rearrangements of one
    another give the same answer from [IsSongThemeMatch] and the same
    stored score from [SetRecommendations].  The names reach the rule in
    map iteration order, which Go leaves open. *)
Theorem score_order_independent p songId songThemes songThemes' :
  songThemes ≡ₚ songThemes' ->
  Forall (fun t => isThemeField t = true) songThemes ->
  (Z.of_nat (length songThemes) < 2 ^ 58)%Z ->
  IsSongThemeMatch p songId songThemes = IsSongThemeMatch p songId songThemes' /\
  SetRecommendations p songId songThemes
  = SetRecommendations p songId songThemes'.
Proof.
  intros Hperm Hall Hlen.
  assert (Hall' : Forall (fun t => isThemeField t = true) songThemes')
    by (by rewrite <- Hperm).
  split.
  - rewrite !IsSongThemeMatch_theme by done.
    by rewrite (matchCount_perm p _ _ Hperm).
  - rewrite !SetRecommendations_theme by (by rewrite <- ?Hperm).
    by rewrite (matchCount_perm p _ _ Hperm), Hperm.
Qed.

Lemma score_order_independent_witness :
  IsSongThemeMatch homeAmericaUser "A" ["Love"; "Home"]
  = IsSongThemeMatch homeAmericaUser "A" ["Home"; "Love"] /\
  SetRecommendations homeAmericaUser "A" ["Love"; "Home"]
  = SetRecommendations homeAmericaUser "A" ["Home"; "Love"].
Proof.
  apply (score_order_independent homeAmericaUser "A"
           ["Love"; "Home"] ["Home"; "Love"]).
  - apply Permutation_swap.
  - by repeat constructor.
  - reflexivity.
Defined.

(** X4.  [IsSongThemeMatch] stops at the first selected theme and never
    looks at the names after it; [SetRecommendations] looks at all of them.
    So a rule whose list holds a selected theme followed, anywhere later,
    by a name that is no boolean field passes its condition and then panics
    in its action. *)
Theorem IsSongThemeMatch_short_circuit p songId before theme after :
  Forall (fun t => isThemeField t = true /\ selectedTheme p t = false) before ->
  isThemeField theme = true ->
  selectedTheme p theme = true ->
  IsSongThemeMatch p songId (before ++ theme :: after) = Return true /\
  (~ Forall (fun t => isThemeField t = true) after ->
   panics (SetRecommendations p songId (before ++ theme :: after)) /\
   panics (fireRule p {| ruleSongId := songId;
                         ruleSongThemes := before ++ theme :: after |})).
Proof.
  intros Hbefore Htheme Hsel.
  assert (Hmatch :
    IsSongThemeMatch p songId (before ++ theme :: after) = Return true).
  { induction Hbefore as [|t before [Ht Hunsel] _ IH];
      cbn [app IsSongThemeMatch].
    - destruct (GetField_theme p _ Htheme) as (f & _ & _ & Hget).
      unfold selectedTheme in Hsel. rewrite Hget in Hsel |- *.
      cbn in Hsel. by rewrite Hsel.
    - destruct (GetField_theme p _ Ht) as (f & _ & _ & Hget).
      unfold selectedTheme in Hunsel. rewrite Hget in Hunsel |- *.
      cbn in Hunsel. by rewrite Hunsel. }
  split; [done|]. intros Hafter.
  assert (Hset : panics (SetRecommendations p songId (before ++ theme :: after))).
  { destruct (SetRecommendations p songId (before ++ theme :: after))
      as [a|err] eqn:Hs; [|by exists err].
    destruct Hafter.
    assert (Hall : Forall (fun t => isThemeField t = true)
                     (before ++ theme :: after)).
    { apply SetRecommendations_returns_iff with (p := p) (songId := songId).
      by exists a. }
    apply Forall_app in Hall as [_ Hall]. by apply Forall_cons in Hall as [_ ?]. }
  split; [done|]. unfold fireRule. cbn [ruleSongId ruleSongThemes].
  rewrite Hmatch. destruct Hset as [err ->]. by exists err.
Qed.

Lemma IsSongThemeMatch_short_circuit_witness :
  IsSongThemeMatch homeAmericaUser "A" (["Love"] ++ "Home" :: ["Bogus"])
  = Return true /\
  panics (SetRecommendations homeAmericaUser "A"
            (["Love"] ++ "Home" :: ["Bogus"])) /\
  panics (fireRule homeAmericaUser
            {| ruleSongId := "A";
               ruleSongThemes := ["Love"] ++ "Home" :: ["Bogus"] |}).
Proof.
  destruct (IsSongThemeMatch_short_circuit homeAmericaUser "A"
              ["Love"] "Home" ["Bogus"]) as [Hmatch Hpanic].
  - by repeat constructor.
  - reflexivity.
  - reflexivity.
  - split; [exact Hmatch|]. apply Hpanic.
    intros Hall. apply Forall_cons in Hall as [Hbogus _]. discriminate Hbogus.
Defined.

(** ** Evaluation *)

Lemma evaluate_sameFlags p rules p' :
  evaluate p rules = Return p' -> sameFlags p p'.
Proof.
  revert p. induction rules as [|r rules IH]; intros p; cbn [evaluate].
  - by intros [= <-].
  - destruct (fireRule p r) as [p1|] eqn:Hfire; [|done]. intros Heval.
    eapply sameFlags_trans; [by eapply fireRule_sameFlags|by apply IH].
Qed.

Lemma fireRule_other_id p r p' id :
  fireRule p r = Return p' -> id <> ruleSongId r ->
  Recommendations p' !! id = Recommendations p !! id.
Proof.
  intros Hfire Hne. apply fireRule_returns in Hfire as [->|[v ->]]; [done|].
  cbn. by rewrite lookup_insert_ne.
Qed.

Lemma evaluate_other_id p rules p' id :
  evaluate p rules = Return p' -> id ∉ ruleSongId <$> rules ->
  Recommendations p' !! id = Recommendations p !! id.
Proof.
  revert p. induction rules as [|r rules IH]; intros p; cbn [evaluate].
  - by intros [= <-].
  - destruct (fireRule p r) as [p1|] eqn:Hfire; [|done]. intros Heval Hid.
    rewrite fmap_cons, not_elem_of_cons in Hid. destruct Hid as [Hne Hid].
    rewrite (IH _ Heval Hid). by eapply fireRule_other_id.
Qed.

(** X6.  A completed evaluation changes nothing but scores of the rules'
    own identifiers: the ten flags are as before, and so is the entry of
    every identifier that no rule names. *)
Theorem evaluate_frame p rules p' :
  evaluate p rules = Return p' ->
  sameFlags p p' /\
  (forall id, id ∉ ruleSongId <$> rules ->
              Recommendations p' !! id = Recommendations p !! id).
Proof.
  intros Heval. split; [by eapply evaluate_sameFlags|].
  intros id Hid. by eapply evaluate_other_id.
Qed.

Lemma evaluate_frame_witness :
  sameFlags homeAmericaUser
    (storeRecommendation homeAmericaUser "A" 19) /\
  (forall id,
     id ∉ ruleSongId <$> [ {| ruleSongId := "A"; ruleSongThemes := ["Home"] |} ] ->
     Recommendations (storeRecommendation homeAmericaUser "A" 19) !! id
     = Recommendations homeAmericaUser !! id).
Proof.
  apply (evaluate_frame homeAmericaUser
           [ {| ruleSongId := "A"; ruleSongThemes := ["Home"] |} ]).
  reflexivity.
Defined.

Lemma fireRule_theme p r :
  Forall (fun t => isThemeField t = true) (ruleSongThemes r) ->
  (Z.of_nat (length (ruleSongThemes r)) < 2 ^ 58)%Z ->
  fireRule p r
  = Return (if bool_decide (0 < matchCount p (ruleSongThemes r))
            then storeRecommendation p (ruleSongId r)
                   (scoreOf p (ruleSongThemes r))
            else p).
Proof.
  intros Hall Hlen. unfold fireRule.
  rewrite IsSongThemeMatch_theme by done.
  destruct (bool_decide (0 < matchCount p (ruleSongThemes r))); [|done].
  by rewrite SetRecommendations_theme.
Qed.

Lemma scoreOf_sameFlags p q songThemes :
  sameFlags p q -> scoreOf p songThemes = scoreOf q songThemes.
Proof. intros Hpq. unfold scoreOf. by rewrite (matchCount_sameFlags p q). Qed.

Lemma evaluate_scores p rules :
  Forall (fun r => Forall (fun t => isThemeField t = true) (ruleSongThemes r)
                   /\ (Z.of_nat (length (ruleSongThemes r)) < 2 ^ 58)%Z) rules ->
  NoDup (ruleSongId <$> rules) ->
  exists p',
    evaluate p rules = Return p' /\
    forall r, r ∈ rules ->
      Recommendations p' !! ruleSongId r
      = if bool_decide (0 < matchCount p (ruleSongThemes r))
        then Some (scoreOf p (ruleSongThemes r))
        else Recommendations p !! ruleSongId r.
Proof.
  intros Hrules. revert p.
  induction Hrules as [|r rules [Hall Hlen] _ IH]; intros p Hnodup.
  - exists p. split; [done|]. intros r Hr. by apply elem_of_nil in Hr.
  - rewrite fmap_cons in Hnodup. apply NoDup_cons in Hnodup as [Hr Hnodup].
    pose proof (fireRule_theme p r Hall Hlen) as Hfire.
    set (p1 := if bool_decide (0 < matchCount p (ruleSongThemes r))
               then storeRecommendation p (ruleSongId r)
                      (scoreOf p (ruleSongThemes r))
               else p) in *.
    pose proof (fireRule_sameFlags _ _ _ Hfire) as Hflags.
    destruct (IH p1 Hnodup) as (p' & Heval & Hscores).
    exists p'. cbn [evaluate]. rewrite Hfire. split; [done|].
    intros r' Hr'. apply elem_of_cons in Hr' as [->|Hr'].
    + rewrite (evaluate_other_id _ _ _ _ Heval Hr). subst p1.
      destruct (bool_decide (0 < matchCount p (ruleSongThemes r))); [|done].
      cbn. by rewrite lookup_insert_eq.
    + rewrite (Hscores r' Hr').
      rewrite <- (matchCount_sameFlags p p1 _ Hflags).
      rewrite <- (scoreOf_sameFlags p p1 _ Hflags).
      destruct (bool_decide (0 < matchCount p (ruleSongThemes r'))); [done|].
      assert (Hne : ruleSongId r' <> ruleSongId r).
      { intros Heq. apply Hr. rewrite <- Heq. by apply list_elem_of_fmap_2. }
      by rewrite (fireRule_other_id _ _ _ _ Hfire Hne).
Qed.

(** X7.  The score map after an evaluation.  When every rule passes names
    of boolean fields and the rules' identifiers are distinct, the
    evaluation completes, and for each rule the map then holds
    [20*matchCount - themeCount] under the rule's identifier if the user
    selected at least one of its themes, and what it held before (nothing,
    for a fresh request) if the user selected none. *)
Theorem evaluate_score_map p rules :
  Forall (fun r => Forall (fun t => isThemeField t = true) (ruleSongThemes r)
                   /\ (Z.of_nat (length (ruleSongThemes r)) < 2 ^ 58)%Z) rules ->
  NoDup (ruleSongId <$> rules) ->
  exists p',
    evaluate p rules = Return p' /\
    forall r, r ∈ rules ->
      Recommendations p' !! ruleSongId r
      = if bool_decide (0 < matchCount p (ruleSongThemes r))
        then Some (scoreOf p (ruleSongThemes r))
        else Recommendations p !! ruleSongId r.
Proof. apply evaluate_scores. Qed.

Lemma evaluate_score_map_witness :
  exists p',
    evaluate homeAmericaUser
      [ {| ruleSongId := "A"; ruleSongThemes := ["Home"; "America"] |};
        {| ruleSongId := "B"; ruleSongThemes := ["Love"] |} ]
    = Return p' /\
    Recommendations p' !! "A" = Some 38%Z /\
    Recommendations p' !! "B" = None.
Proof.
  destruct (evaluate_score_map homeAmericaUser
              [ {| ruleSongId := "A"; ruleSongThemes := ["Home"; "America"] |};
                {| ruleSongId := "B"; ruleSongThemes := ["Love"] |} ])
    as (p' & Heval & Hscores).
  - by repeat constructor.
  - apply (bool_decide_unpack _). reflexivity.
  - exists p'. split; [exact Heval|]. split.
    + apply (Hscores {| ruleSongId := "A";
                        ruleSongThemes := ["Home"; "America"] |}).
      by left.
    + apply (Hscores {| ruleSongId := "B"; ruleSongThemes := ["Love"] |}).
      right. by left.
Defined.

(** ** Reading the catalog *)

Lemma foldl_insert_lookup {V W : Type} (g : V -> W) (l : list (string * V))
    (acc : gmap string W) key :
  NoDup l.*1 ->
  foldl (fun m kv => <[kv.1 := g kv.2]> m) acc l !! key
  = match (list_to_map l : gmap string V) !! key with
    | Some v => Some (g v)
    | None => acc !! key
    end.
Proof.
  revert acc. induction l as [|[k v] l IH]; intros acc Hnodup; [done|].
  apply NoDup_cons in Hnodup as [Hk Hnodup].
  cbn [foldl]. rewrite IH by done. cbn.
  destruct (decide (k = key)) as [->|Hne].
  - rewrite lookup_insert_eq.
    by rewrite (not_elem_of_list_to_map_1 _ _ Hk), lookup_insert_eq.
  - rewrite (lookup_insert_ne (list_to_map l)) by done.
    destruct (list_to_map l !! key); [done|]. by rewrite lookup_insert_ne.
Qed.

Lemma extractThemes_map `{GoRuntime} (m : gmap string AttributeValue) :
  extractThemes (AttributeValueMemberM m) = getStringValue <$> m.
Proof.
  apply map_eq. intros key. cbn [extractThemes].
  rewrite foldl_insert_lookup.
  2:{ rewrite rangeMap_perm. apply NoDup_fst_map_to_list. }
  rewrite <- (list_to_map_flip m (rangeMap m)) by (by rewrite rangeMap_perm).
  rewrite lookup_fmap. by destruct (m !! key).
Qed.

(** X8.  The theme map of the document read from a catalog item has
    exactly the keys of the item's [themes] map, whatever order the map is
    ranged in; a theme stored as a string keeps its text, and a theme
    stored as anything else (a number, a list, a nested map) is kept with
    the empty description.  An item whose [themes] attribute is missing or
    is not a map gives a document without themes. *)
Theorem documentOfItem_themes `{GoRuntime} (item : gmap string AttributeValue)
    (key : string) :
  Themes (documentOfItem item) !! key
  = match itemAt item "themes" with
    | AttributeValueMemberM m =>
        match m !! key with
        | Some (AttributeValueMemberS desc) => Some desc
        | Some _ => Some EmptyString
        | None => None
        end
    | _ => None
    end.
Proof.
  cbn [documentOfItem Themes].
  destruct (itemAt item "themes") as [| | |m| |] eqn:Hthemes;
    try (by apply lookup_empty).
  rewrite extractThemes_map, lookup_fmap.
  destruct (m !! key) as [[]|]; done.
Qed.

(** X9.  The names a catalog item's rule passes to the two methods are the
    capitalised keys of those themes that are stored as a non-empty string:
    a theme stored as a number or with an empty text is left out of the
    rule, and so is every theme of an item whose [themes] attribute is not
    a map. *)
Theorem catalog_theme_names `{GoRuntime} (item : gmap string AttributeValue)
    (name : string) :
  name ∈ themeNames (documentOfItem item)
  <-> exists m key desc,
        itemAt item "themes" = AttributeValueMemberM m /\
        m !! key = Some (AttributeValueMemberS desc) /\
        desc <> EmptyString /\
        name = capitalizeFirstLetter key.
Proof.
  unfold themeNames. rewrite list_elem_of_fmap. split.
  - intros ([key desc] & -> & Hin). cbn.
    apply list_elem_of_filter in Hin as [Hdesc Hin]. cbn in Hdesc.
    rewrite rangeMap_perm in Hin. apply elem_of_map_to_list in Hin.
    cbn [documentOfItem Themes] in Hin.
    destruct (itemAt item "themes") as [| | |m| |] eqn:Hthemes;
      try (cbn [extractThemes] in Hin; by rewrite lookup_empty in Hin).
    rewrite extractThemes_map, lookup_fmap in Hin.
    destruct (m !! key) as [[]|] eqn:Hkey; try done; cbn in Hin;
      try (injection Hin as <-; done).
    injection Hin as ->. by exists m, key, desc.
  - intros (m & key & desc & Hthemes & Hkey & Hdesc & ->).
    exists (key, desc). split; [done|].
    apply list_elem_of_filter. split; [done|].
    rewrite rangeMap_perm. apply elem_of_map_to_list.
    cbn [documentOfItem Themes]. rewrite Hthemes, extractThemes_map.
    by rewrite lookup_fmap, Hkey.
Qed.

Example exampleItem_theme_names :
  @themeNames forwardRuntime (@documentOfItem forwardRuntime exampleItem)
  = ["Home"].
Proof. by vm_compute. Qed.

(** ** Filtering and the size of the response *)

(** X10.  [filterDocuments] returns, in catalog order, exactly the catalog
    documents whose identifier is listed; it returns every document that
    carries a listed identifier, so it returns no more documents than
    identifiers were listed only when the catalog's identifiers are
    distinct. *)
Theorem filterDocuments_spec (documents : list CountryMusicDocument)
    (topRuleIDs : list string) :
  sublist (filterDocuments documents topRuleIDs) documents /\
  (forall doc,
     doc ∈ filterDocuments documents topRuleIDs
     <-> doc ∈ documents /\ RuleID doc ∈ topRuleIDs) /\
  (NoDup (RuleID <$> documents) ->
   length (filterDocuments documents topRuleIDs) <= length topRuleIDs).
Proof.
  rewrite filterDocuments_filter. split_and!.
  - apply sublist_filter.
  - intros doc. rewrite list_elem_of_filter. tauto.
  - intros Hnodup.
    rewrite <- (length_fmap RuleID), filter_RuleID.
    apply submseteq_length, NoDup_submseteq; [by apply NoDup_filter|].
    intros id Hid. by apply list_elem_of_filter in Hid as [? _].
Qed.

Lemma sublist_keeps_catalog_order_example :
  filterDocuments [tieDocA; tieDocB; tieDocA] ["A"] = [tieDocA; tieDocA].
Proof. by vm_compute. Qed.

(** X11.  The response of the pipeline.  [filterDocumentsByRecommendations]
    always returns; every document it returns has a recorded score; when
    the catalog's identifiers are distinct it returns at most three
    documents; and when no score was recorded it returns none. *)
Theorem response_bounded `{GoRuntime}
    (documents : list CountryMusicDocument) (userSelections : UserSelections) :
  exists response,
    filterDocumentsByRecommendations documents userSelections
    = Return response /\
    Forall (fun doc => is_Some (Recommendations userSelections !! RuleID doc))
      response /\
    (NoDup (RuleID <$> documents) -> length response <= 3) /\
    (Recommendations userSelections = ∅ -> response = []).
Proof.
  unfold filterDocumentsByRecommendations.
  rewrite getTopNRecommendations_take by done.
  set (sortedList := sortSlice byValueDescending
                       (toEntry <$> rangeMap (Recommendations userSelections))).
  set (topRuleIDs := Key <$> take (Z.to_nat 3) sortedList).
  assert (Htop : forall id, id ∈ topRuleIDs ->
                   is_Some (Recommendations userSelections !! id)).
  { intros id Hid. apply list_elem_of_fmap in Hid as (e & -> & He).
    apply elem_of_take in He as (i & He & _).
    apply list_elem_of_lookup_2 in He. apply sortedList_elem in He.
    by eexists. }
  assert (Hlen : length topRuleIDs <= 3).
  { subst topRuleIDs. rewrite length_fmap, length_take. lia. }
  eexists. split; [done|]. rewrite filterDocuments_filter. split_and!.
  - unfold generateThemeUpdatedDocs. apply Forall_fmap, Forall_forall.
    intros doc Hdoc. apply list_elem_of_filter in Hdoc as [Hid _].
    by apply Htop.
  - intros Hnodup. unfold generateThemeUpdatedDocs.
    rewrite length_fmap, <- (length_fmap RuleID), filter_RuleID.
    etrans; [|exact Hlen].
    apply submseteq_length, NoDup_submseteq; [by apply NoDup_filter|].
    intros id Hid. by apply list_elem_of_filter in Hid as [? _].
  - intros Hempty. unfold generateThemeUpdatedDocs.
    assert (Hnone : filter (fun doc => RuleID doc ∈ topRuleIDs) documents = []).
    { induction documents as [|doc documents IH]; [done|].
      rewrite filter_cons_False; [done|]. intros Hid.
      apply Htop in Hid as [v Hv]. by rewrite Hempty, lookup_empty in Hv. }
    by rewrite Hnone.
Qed.

(** ** The request handler *)

Lemma filterDocumentsByRecommendations_returns `{GoRuntime}
    (documents : list CountryMusicDocument) (userSelections : UserSelections) :
  returns (filterDocumentsByRecommendations documents userSelections).
Proof.
  unfold filterDocumentsByRecommendations.
  rewrite getTopNRecommendations_take by done. by eexists.
Qed.

(** X12.  [handleRequest] completes exactly when the builder accepts the
    rule text and the engine reports no error; its response is then the
    pipeline's, computed from the selections as the engine left them.  In
    every other case it panics: an error is never returned. *)
Theorem handleRequest_outcome `{GoRuntime}
    (BuildRuleFromResource : string -> option error)
    (Execute : string -> UserSelections -> UserSelections * option error)
    (documents : list CountryMusicDocument) (userSelections : UserSelections) :
  (returns (handleRequest BuildRuleFromResource Execute documents userSelections)
   <-> BuildRuleFromResource (extractGrules documents) = None /\
       (Execute (extractGrules documents) userSelections).2 = None) /\
  (panics (handleRequest BuildRuleFromResource Execute documents userSelections)
   <-> is_Some (BuildRuleFromResource (extractGrules documents)) \/
       is_Some (Execute (extractGrules documents) userSelections).2) /\
  (BuildRuleFromResource (extractGrules documents) = None ->
   (Execute (extractGrules documents) userSelections).2 = None ->
   handleRequest BuildRuleFromResource Execute documents userSelections
   = filterDocumentsByRecommendations documents
       (Execute (extractGrules documents) userSelections).1).
Proof.
  unfold handleRequest.
  destruct (BuildRuleFromResource (extractGrules documents)) as [err|].
  { split_and!.
    - split; [by intros [a Ha]|by intros [? _]].
    - split; [intros _; left; by eexists|intros _; by exists err].
    - done. }
  destruct (Execute (extractGrules documents) userSelections)
    as [userSelections' [err|]]; cbn [fst snd].
  { split_and!.
    - split; [by intros [a Ha]|by intros [_ ?]].
    - split; [intros _; right; by eexists|intros _; by exists err].
    - done. }
  destruct (filterDocumentsByRecommendations_returns documents userSelections')
    as [response Hresponse].
  split_and!.
  - split; [done|]. intros _. by exists response.
  - rewrite Hresponse. split; [by intros [e He]|].
    intros [[e He]|[e He]]; done.
  - done.
Qed.

(** ** The request decoder *)

Lemma userSelected_requestKey `{GoRuntime} (userSelections : UserSelections)
    (f : field) :
  f ∈ themeFields ->
  userSelected userSelections (requestKey f) = fieldBool userSelections f.
Proof.
  intros Hf. destruct userSelections.
  destruct f; try (vm_compute;
    match goal with |- (if ?b then _ else _) = _ => by destruct b end).
  unfold themeFields in Hf.
  repeat (apply elem_of_cons in Hf as [Hf|Hf]; [discriminate Hf|]).
  by apply elem_of_nil in Hf.
Qed.

(** X14.  What the decoder stores is what the other functions read back:
    for each of the ten themes, [GetField] under the field's name returns
    the value the request holds under the decoder's key for that theme
    ([false] when the key is missing), and redaction treats a catalog theme
    stored under that same key as selected exactly when the request
    selected it. *)
Theorem decoder_read_back `{GoRuntime} (incoming : IncomingRequest) :
  Forall
    (fun f =>
       GetField (getUserSelections incoming) (nameOfField f)
       = (default false (IncomingThemes incoming !! requestKey f), None) /\
       userSelected (getUserSelections incoming) (requestKey f)
       = default false (IncomingThemes incoming !! requestKey f))
    themeFields.
Proof.
  unfold themeFields.
  repeat (apply Forall_cons; split; [split|]); try apply Forall_nil;
    try reflexivity;
    by rewrite userSelected_requestKey by (unfold themeFields; set_solver).
Qed.

(** X15.  The decoder looks at ten keys of the request and at nothing else:
    two requests that agree on those keys give the same selections, with an
    empty score map. *)
Theorem getUserSelections_ten_keys (incoming incoming' : IncomingRequest) :
  (forall f, f ∈ themeFields ->
     IncomingThemes incoming !! requestKey f
     = IncomingThemes incoming' !! requestKey f) ->
  getUserSelections incoming = getUserSelections incoming' /\
  Recommendations (getUserSelections incoming) = ∅.
Proof.
  intros Hsame. split; [|done].
  apply Forall_forall in Hsame. unfold themeFields in Hsame.
  repeat (apply Forall_cons in Hsame as [? Hsame]).
  cbn [requestKey] in *. unfold getUserSelections. congruence.
Qed.

Lemma getUserSelections_ten_keys_witness :
  getUserSelections
    {| IncomingThemes := <["home" := true]> (<["Home" := false]> ∅) |}
  = getUserSelections {| IncomingThemes := <["home" := true]> ∅ |} /\
  Recommendations
    (getUserSelections
       {| IncomingThemes := <["home" := true]> (<["Home" := false]> ∅) |})
  = ∅.
Proof.
  apply (getUserSelections_ten_keys
           {| IncomingThemes := <["home" := true]> (<["Home" := false]> ∅) |}
           {| IncomingThemes := <["home" := true]> ∅ |}).
  intros f Hf. unfold themeFields in Hf.
  repeat (apply elem_of_cons in Hf as [->|Hf]; [reflexivity|]).
  by apply elem_of_nil in Hf.
Defined.

(** ** Redaction of keys outside the vocabulary *)

Lemma userSelected_true `{GoRuntime} (userSelections : UserSelections) key :
  userSelected userSelections key = true ->
  exists f, f ∈ themeFields /\
    ToLower (nameOfField f) = ToLower key /\
    fieldBool userSelections f = true.
Proof.
  unfold userSelected. intros Hsel.
  apply existsb_exists in Hsel as (f & Hf & Hboth).
  apply andb_true_iff in Hboth as [Heq Hflag].
  exists f. split_and!; [by apply list_elem_of_In|by apply String.eqb_eq|done].
Qed.

(** X16.  Redaction blanks every theme it cannot attribute to a selected
    field: the value under a key that matches no vocabulary name (letter
    case aside) becomes the empty string whatever the user selected, and
    when the user selected nothing every value becomes the empty string. *)
Theorem unknown_key_blanked `{GoRuntime}
    (filteredDocs : list CountryMusicDocument) (userSelections : UserSelections) :
  Forall2
    (fun doc out =>
       forall key value,
         Themes doc !! key = Some value ->
         ((forall f, f ∈ themeFields ->
             ToLower (nameOfField f) <> ToLower key) ->
          Themes out !! key = Some EmptyString) /\
         ((forall f, f ∈ themeFields -> fieldBool userSelections f = false) ->
          Themes out !! key = Some EmptyString))
    filteredDocs (generateThemeUpdatedDocs filteredDocs userSelections).
Proof.
  unfold generateThemeUpdatedDocs. apply Forall2_fmap_r, Forall_Forall2_diag.
  apply Forall_forall. intros doc _ key value Hvalue.
  rewrite themeUpdatedDoc_lookup, Hvalue. cbn. unfold redactedValue.
  destruct (userSelected userSelections key) eqn:Hsel; [|done].
  apply userSelected_true in Hsel as (f & Hf & Heq & Hflag).
  split; intros Hnone.
  - by destruct (Hnone f Hf).
  - by rewrite (Hnone f Hf) in Hflag.
Qed.

(** ** Capitalising *)

Lemma upperByte_facts (c : ascii) :
  Nat.ltb (nat_of_ascii c) 128 = true ->
  Nat.ltb (nat_of_ascii (upperByte c)) 128 = true /\
  upperByte (upperByte c) = upperByte c /\
  lowerByte (upperByte c) = lowerByte c.
Proof. destruct c as [[] [] [] [] [] [] [] []]; by vm_compute. Qed.

Lemma capitalizeFirstLetter_ascii_cons `{GoRuntime} (c : ascii) (rest : string) :
  Nat.ltb (nat_of_ascii c) 128 = true ->
  capitalizeFirstLetter (String c rest) = String (upperByte c) rest.
Proof.
  intros Hc. unfold capitalizeFirstLetter, ToUpper. cbn [isASCII].
  by rewrite Hc.
Qed.

(** X17.  On a key made of ASCII bytes, [capitalizeFirstLetter] changes
    the first byte only: the empty key stays empty, and of any other key the
    first byte is upper-cased and every byte after it is kept as it is.
    Hence the result is ASCII and as long as the key, capitalising it again
    changes nothing, and it lower-cases to the same string as the key, so
    redaction treats a key and its capitalised form alike. *)
Theorem capitalizeFirstLetter_ascii `{GoRuntime} (key : string) :
  isASCII key = true ->
  capitalizeFirstLetter key
  = match key with
    | EmptyString => EmptyString
    | String c rest => String (upperByte c) rest
    end /\
  capitalizeFirstLetter (capitalizeFirstLetter key)
  = capitalizeFirstLetter key /\
  String.length (capitalizeFirstLetter key) = String.length key /\
  isASCII (capitalizeFirstLetter key) = true /\
  ToLower (capitalizeFirstLetter key) = ToLower key /\
  (forall userSelections,
     userSelected userSelections (capitalizeFirstLetter key)
     = userSelected userSelections key).
Proof.
  intros Hkey. destruct key as [|c rest]; [done|].
  cbn [isASCII] in Hkey. apply andb_true_iff in Hkey as [Hc Hrest].
  destruct (upperByte_facts c Hc) as (Hup & Hidem & Hlow).
  rewrite capitalizeFirstLetter_ascii_cons by done.
  assert (Hlower : ToLower (String (upperByte c) rest) = ToLower (String c rest)).
  { unfold ToLower. cbn [isASCII mapBytes]. by rewrite Hup, Hc, Hrest, Hlow. }
  split_and!.
  - done.
  - rewrite capitalizeFirstLetter_ascii_cons by done. by rewrite Hidem.
  - done.
  - cbn [isASCII]. by rewrite Hup, Hrest.
  - done.
  - intros userSelections. unfold userSelected. by rewrite Hlower.
Qed.

Lemma capitalizeFirstLetter_ascii_witness :
  @capitalizeFirstLetter forwardRuntime "carsTrucksTractors"
  = "CarsTrucksTractors" /\
  @capitalizeFirstLetter forwardRuntime
    (@capitalizeFirstLetter forwardRuntime "carsTrucksTractors")
  = @capitalizeFirstLetter forwardRuntime "carsTrucksTractors" /\
  String.length (@capitalizeFirstLetter forwardRuntime "carsTrucksTractors")
  = String.length "carsTrucksTractors" /\
  isASCII (@capitalizeFirstLetter forwardRuntime "carsTrucksTractors") = true /\
  @ToLower forwardRuntime
    (@capitalizeFirstLetter forwardRuntime "carsTrucksTractors")
  = @ToLower forwardRuntime "carsTrucksTractors" /\
  (forall userSelections,
     @userSelected forwardRuntime userSelections
       (@capitalizeFirstLetter forwardRuntime "carsTrucksTractors")
     = @userSelected forwardRuntime userSelections "carsTrucksTractors").
Proof.
  apply (@capitalizeFirstLetter_ascii forwardRuntime "carsTrucksTractors").
  reflexivity.
Defined.

(** ** The rule text of a catalog *)

Lemma Join_app (l1 l2 : list string) (sep : string) :
  l1 <> [] -> l2 <> [] ->
  Join (l1 ++ l2) sep = Join l1 sep +:+ sep +:+ Join l2 sep.
Proof.
  intros Hl1 Hl2. induction l1 as [|e l1 IH]; [done|].
  destruct l1 as [|e' l1].
  - destruct l2 as [|e2 l2]; [done|]. reflexivity.
  - change (e +:+ sep +:+ Join ((e' :: l1) ++ l2) sep
            = (e +:+ sep +:+ Join (e' :: l1) sep) +:+ sep +:+ Join l2 sep).
    rewrite IH by done. by rewrite !string_app_assoc.
Qed.

(** X18.  The rule text is built document by document: the text for a
    catalog made of two non-empty parts is the text of the first part, an
    empty line, and the text of the second part; the empty catalog gives
    the empty text. *)
Theorem extractGrules_app `{GoRuntime}
    (documents1 documents2 : list CountryMusicDocument) :
  documents1 <> [] -> documents2 <> [] ->
  extractGrules (documents1 ++ documents2)
  = extractGrules documents1 +:+ (nl +:+ nl) +:+ extractGrules documents2 /\
  extractGrules [] = EmptyString.
Proof.
  intros H1 H2. split; [|done]. unfold extractGrules.
  rewrite fmap_app. apply Join_app.
  - by destruct documents1.
  - by destruct documents2.
Qed.

Lemma extractGrules_app_witness :
  @extractGrules forwardRuntime ([tieDocA] ++ [tieDocB])
  = @extractGrules forwardRuntime [tieDocA] +:+ (nl +:+ nl)
    +:+ @extractGrules forwardRuntime [tieDocB] /\
  @extractGrules forwardRuntime [] = EmptyString.
Proof.
  apply (@extractGrules_app forwardRuntime [tieDocA] [tieDocB]); discriminate.
Defined.

(** X22.  The first line of each rule holds the document's identifier
    and, between double quotes, its title exactly as stored: the compiler
    escapes nothing.  For every document of the catalog the text contains
    [rule Check<RuleID> "<Title>" salience 10 {] character for character. *)
Theorem rule_header_verbatim `{GoRuntime}
    (documents : list CountryMusicDocument) :
  Forall
    (fun d =>
       contains (extractGrules documents)
         ("rule Check" +:+ RuleID d +:+ " " +:+ dq +:+ Title d +:+ dq
          +:+ " salience 10 {"))
    documents.
Proof.
  apply Forall_forall. intros d Hd.
  eapply contains_trans; [by apply extractGrules_contains_ruleText|].
  destruct (ruleFormat_header d) as [rest ->]. apply contains_prefix.
Qed.

(** The title of [quoteTitleDoc] reaches the text with its double quote,
    which makes three on the first line of its rule.  Whether the imported
    builder takes such a text is decided by its grammar, which the sources
    do not hold. *)
Example quoteTitleDoc_header :
  contains (@extractGrules forwardRuntime [quoteTitleDoc])
    ("rule Check10003 " +:+ dq +:+ "Honky Tonk " +:+ dq +:+ "Badonkadonk" +:+ dq
     +:+ " salience 10 {").
Proof.
  eexists EmptyString, _. vm_compute. reflexivity.
Qed.

(** ** Scores of the rules the compiler writes *)

Lemma uncap_upperByte (c : ascii) :
  Nat.ltb (nat_of_ascii c) 128 = true ->
  (if Nat.leb 97 (nat_of_ascii c) && Nat.leb (nat_of_ascii c) 122
   then ascii_of_nat (nat_of_ascii (upperByte c) + 32) else upperByte c) = c.
Proof. destruct c as [[] [] [] [] [] [] [] []]; by vm_compute. Qed.

Lemma keyOfSpelling_spelling `{GoRuntime} (key : string) :
  isASCII key = true -> keyOfSpelling (spelling key) = key.
Proof.
  intros Hkey. destruct key as [|c rest]; [done|].
  cbn [isASCII] in Hkey. apply andb_true_iff in Hkey as [Hc _].
  unfold spelling, keyOfSpelling. cbn [fst snd lowerFirst].
  rewrite capitalizeFirstLetter_ascii_cons by done.
  by rewrite uncap_upperByte.
Qed.

Lemma length_filter_fmap {A B} (f : A -> B) (P : B -> Prop)
    `{forall b, Decision (P b)} (l : list A) :
  length (filter P (f <$> l)) = length (filter (fun a => P (f a)) l).
Proof.
  induction l as [|a l IH]; [done|].
  rewrite fmap_cons, !filter_cons. case_decide; cbn; by rewrite IH.
Qed.

Lemma length_filter_selected p (l : list string) :
  length (filter (fun t => selectedTheme p t = true) l)
  + length (filter (fun t => selectedTheme p t = false) l)
  = length l.
Proof.
  induction l as [|t l IH]; [done|].
  rewrite !filter_cons. destruct (selectedTheme p t) eqn:Ht.
  - rewrite decide_True, decide_False by done. cbn. lia.
  - rewrite decide_False, decide_True by done. cbn. lia.
Qed.

(** With one theme selected, at most nine vocabulary names are not. *)
Lemma unselected_vocabulary_le p name :
  name ∈ vocabulary -> selectedTheme p name = true ->
  length (filter (fun t => selectedTheme p t = false) vocabulary) <= 9.
Proof.
  intros Hname Hsel.
  pose proof (length_filter_selected p vocabulary) as Hsum.
  change (length vocabulary) with 10 in Hsum.
  assert (Hone : 1 <= length (filter (fun t => selectedTheme p t = true)
                                vocabulary)).
  { assert (Hin : name ∈ filter (fun t => selectedTheme p t = true) vocabulary)
      by (by apply list_elem_of_filter).
    destruct (filter _ vocabulary); [by apply elem_of_nil in Hin|cbn; lia]. }
  lia.
Qed.

(** Each name has two spellings as a key, so among the names of ASCII keys
    that are all fields, those with a property [Q] number at most twice the
    vocabulary names with [Q]. *)
Lemma names_le_twice `{GoRuntime} (Q : string -> Prop)
    `{forall t, Decision (Q t)} (keys : list string) :
  NoDup keys ->
  Forall (fun key => isASCII key = true) keys ->
  Forall (fun key => isThemeField (capitalizeFirstLetter key) = true) keys ->
  length (filter Q (capitalizeFirstLetter <$> keys))
  <= 2 * length (filter Q vocabulary).
Proof.
  intros Hnodup Hascii Hfields.
  rewrite length_filter_fmap.
  set (chosenKeys := filter (fun key => Q (capitalizeFirstLetter key)) keys).
  set (chosen := filter Q vocabulary).
  set (candidates := ((fun n => (n, true)) <$> chosen)
                     ++ ((fun n => (n, false)) <$> chosen)).
  assert (Hcand : length candidates = 2 * length chosen).
  { subst candidates. rewrite length_app, !length_fmap. lia. }
  rewrite <- Hcand, <- (length_fmap spelling chosenKeys).
  apply submseteq_length, NoDup_submseteq.
  - apply NoDup_fmap_2_strong; [|by apply NoDup_filter].
    intros k1 k2 Hk1 Hk2 Heq.
    apply list_elem_of_filter in Hk1 as [_ Hk1].
    apply list_elem_of_filter in Hk2 as [_ Hk2].
    rewrite Forall_forall in Hascii.
    rewrite <- (keyOfSpelling_spelling k1), <- (keyOfSpelling_spelling k2)
      by auto.
    by rewrite Heq.
  - intros sp Hsp. apply list_elem_of_fmap in Hsp as (key & -> & Hkey).
    apply list_elem_of_filter in Hkey as [HQ Hkey].
    rewrite Forall_forall in Hfields.
    assert (Hin : capitalizeFirstLetter key ∈ chosen).
    { apply list_elem_of_filter. split; [done|].
      by apply theme_in_vocabulary, Hfields. }
    subst candidates. apply elem_of_app. unfold spelling.
    destruct (lowerFirst key).
    + left. by apply (list_elem_of_fmap_2 (fun n => (n, true))).
    + right. by apply (list_elem_of_fmap_2 (fun n => (n, false))).
Qed.

Lemma themeNames_keys `{GoRuntime} (document : CountryMusicDocument) :
  exists keys,
    themeNames document = capitalizeFirstLetter <$> keys /\
    NoDup keys /\
    Forall (fun key => is_Some (Themes document !! key)) keys.
Proof.
  exists ((filter (fun kv : string * string => kv.2 <> EmptyString)
             (rangeMap (Themes document))).*1).
  split_and!.
  - unfold themeNames. by rewrite <- list_fmap_compose.
  - eapply sublist_NoDup; [|apply fmap_sublist, sublist_filter].
    rewrite rangeMap_perm. apply NoDup_fst_map_to_list.
  - apply Forall_forall. intros key Hkey.
    apply list_elem_of_fmap in Hkey as ([k v] & -> & Hkv).
    apply list_elem_of_filter in Hkv as [_ Hkv].
    rewrite rangeMap_perm in Hkv. apply elem_of_map_to_list in Hkv.
    by exists v.
Qed.

(** X19.  No rule the compiler writes records a score of zero or less.  For
    a document whose theme keys are ASCII and whose names are all boolean
    fields, a rule that fires stores a score of at least 1: a theme can
    appear under two keys at most (first letter in either case), so at most
    eighteen names are unselected against at least one selected.  The bound
    is met by [fullDoc]: nineteen names, one of them selected. *)
Theorem compiled_rule_score_positive `{GoRuntime} p
    (document : CountryMusicDocument) :
  (forall key, is_Some (Themes document !! key) -> isASCII key = true) ->
  Forall (fun t => isThemeField t = true) (themeNames document) ->
  IsSongThemeMatch p (RuleID document) (themeNames document) = Return true ->
  exists v,
    SetRecommendations p (RuleID document) (themeNames document)
    = Return (storeRecommendation p (RuleID document) v, v) /\
    (1 <= v)%Z.
Proof.
  intros Hascii Hfields Hmatch.
  destruct (themeNames_keys document) as (keys & Hnames & Hnodup & Hkeys).
  rewrite IsSongThemeMatch_theme in Hmatch by done.
  injection Hmatch as Hmatch. apply bool_decide_eq_true_1 in Hmatch.
  assert (Hsel : exists name, name ∈ vocabulary /\ selectedTheme p name = true).
  { unfold matchCount in Hmatch.
    destruct (filter (fun t => selectedTheme p t = true) (themeNames document))
      as [|name l] eqn:Hfilter; [cbn in Hmatch; lia|].
    assert (Hin : name ∈ filter (fun t => selectedTheme p t = true)
                           (themeNames document))
      by (rewrite Hfilter; by left).
    apply list_elem_of_filter in Hin as [Hname Hin].
    exists name. split; [|done]. apply theme_in_vocabulary.
    rewrite Forall_forall in Hfields. by apply Hfields. }
  destruct Hsel as (name & Hname & Hsel).
  assert (Hasciis : Forall (fun key => isASCII key = true) keys).
  { eapply Forall_impl; [exact Hkeys|]. intros key. apply Hascii. }
  assert (Hfieldkeys :
    Forall (fun key => isThemeField (capitalizeFirstLetter key) = true) keys).
  { rewrite Hnames in Hfields. by apply Forall_fmap in Hfields. }
  assert (Hunsel :
    length (filter (fun t => selectedTheme p t = false) (themeNames document))
    <= 18).
  { rewrite Hnames. etrans; [by apply names_le_twice|].
    pose proof (unselected_vocabulary_le p name Hname Hsel). lia. }
  assert (Hselected : matchCount p (themeNames document) <= 20).
  { unfold matchCount. rewrite Hnames. etrans; [by apply names_le_twice|].
    pose proof (length_filter (fun t => selectedTheme p t = true) vocabulary)
      as Hle.
    change (length vocabulary) with 10 in Hle. lia. }
  pose proof (length_filter_selected p (themeNames document)) as Hsum.
  fold (matchCount p (themeNames document)) in Hsum.
  eexists. split; [apply SetRecommendations_theme; [done|lia]|]. lia.
Qed.

Lemma compiled_rule_score_positive_witness :
  exists v,
    SetRecommendations homeUser (RuleID fullDoc)
      (@themeNames forwardRuntime fullDoc)
    = Return (storeRecommendation homeUser (RuleID fullDoc) v, v) /\
    (1 <= v)%Z.
Proof.
  apply (@compiled_rule_score_positive forwardRuntime homeUser fullDoc).
  - intros key [value Hvalue].
    apply (elem_of_map_to_list (Themes fullDoc)) in Hvalue.
    vm_compute in Hvalue.
    repeat (apply elem_of_cons in Hvalue as [[= -> _]|Hvalue]; [reflexivity|]).
    by apply elem_of_nil in Hvalue.
  - apply (bool_decide_unpack _). by vm_compute.
  - by vm_compute.
Defined.

Example fullDoc_score :
  exists p',
    evaluate homeUser [@documentRule forwardRuntime fullDoc] = Return p' /\
    length (@themeNames forwardRuntime fullDoc) = 19 /\
    Recommendations p' !! "10005" = Some 1%Z.
Proof. eexists. split_and!; [by vm_compute|reflexivity..]. Qed.

(** ** The scorer of country.go *)

(** X20.  The scorer of country.go records the number of selected themes
    itself: given names of boolean fields it stores under [songId], and
    returns, exactly [matchCount], with no factor and no penalty.  That
    value lies between 0 and the number of themes passed, and is at least 1
    whenever the rule's condition held: it never records a negative score,
    and a document with more themes never scores lower for them. *)
Theorem Country_SetRecommendations_bounds p songId songThemes :
  Forall (fun t => isThemeField t = true) songThemes ->
  (Z.of_nat (length songThemes) < 2 ^ 58)%Z ->
  Country.SetRecommendations p songId songThemes
  = Return (storeRecommendation p songId (Z.of_nat (matchCount p songThemes)),
            Z.of_nat (matchCount p songThemes)) /\
  (0 <= Z.of_nat (matchCount p songThemes)
     <= Z.of_nat (length songThemes))%Z /\
  (IsSongThemeMatch p songId songThemes = Return true ->
   (1 <= Z.of_nat (matchCount p songThemes))%Z).
Proof.
  intros Hall Hlen.
  split; [by apply Country_SetRecommendations_count|].
  pose proof (matchCount_le p songThemes) as Hle. split; [lia|].
  rewrite IsSongThemeMatch_theme by done. intros [= Hmatch].
  apply bool_decide_eq_true_1 in Hmatch. lia.
Qed.

Lemma Country_SetRecommendations_bounds_witness :
  Country.SetRecommendations homeAmericaUser "A" ["Home"; "America"; "Love"]
  = Return (storeRecommendation homeAmericaUser "A" 2, 2%Z) /\
  (0 <= 2 <= 3)%Z /\
  (IsSongThemeMatch homeAmericaUser "A" ["Home"; "America"; "Love"]
   = Return true -> (1 <= 2)%Z).
Proof.
  apply (Country_SetRecommendations_bounds homeAmericaUser "A"
           ["Home"; "America"; "Love"]).
  - by repeat constructor.
  - reflexivity.
Defined.

(** ** From the catalog to the response *)

Lemma filter_iff_in {A} (P Q : A -> Prop) `{forall x, Decision (P x)}
    `{forall x, Decision (Q x)} (l : list A) :
  (forall x, x ∈ l -> P x <-> Q x) -> filter P l = filter Q l.
Proof.
  induction l as [|x l IH]; intros Hiff; [done|].
  rewrite !filter_cons.
  assert (Hx : P x <-> Q x) by (apply Hiff; by left).
  rewrite IH by (intros y Hy; apply Hiff; by right).
  destruct (decide (P x)), (decide (Q x)); tauto.
Qed.

Lemma themeKeys_sameFlags `{GoRuntime} p q :
  sameFlags p q -> themeKeys p = themeKeys q.
Proof.
  intros Hpq. unfold themeKeys.
  pose proof (Hpq FAdventure) as H1. pose proof (Hpq FAmerica) as H2.
  pose proof (Hpq FCarsTrucksTractors) as H3. pose proof (Hpq FGoodtimes) as H4.
  pose proof (Hpq FGrit) as H5. pose proof (Hpq FHome) as H6.
  pose proof (Hpq FLove) as H7. pose proof (Hpq FHeartBreak) as H8.
  pose proof (Hpq FLessons) as H9. pose proof (Hpq FRebellion) as H10.
  cbn [fieldBool] in *. congruence.
Qed.

(** X21.  The whole request on a small result.  Start from an empty score
    map, with a catalog whose identifiers are distinct and whose rules pass
    names of boolean fields only.  If the evaluation leaves at most three
    scores, the response is exactly the catalog documents with at least one
    selected theme, in catalog order, each redacted for the user: the
    ranking plays no part. *)
Theorem small_result_response `{GoRuntime}
    (documents : list CountryMusicDocument) (p p' : UserSelections) :
  Recommendations p = ∅ ->
  NoDup (RuleID <$> documents) ->
  Forall (fun doc =>
            Forall (fun t => isThemeField t = true) (themeNames doc) /\
            (Z.of_nat (length (themeNames doc)) < 2 ^ 58)%Z) documents ->
  evaluate p (documentRule <$> documents) = Return p' ->
  size (Recommendations p') <= 3 ->
  filterDocumentsByRecommendations documents p'
  = Return (generateThemeUpdatedDocs
              (filter (fun doc => 0 < matchCount p (themeNames doc)) documents)
              p).
Proof.
  intros Hempty Hnodup Hvalid Heval Hsize.
  destruct (evaluate_scores p (documentRule <$> documents))
    as (p'' & Heval' & Hscores).
  { apply Forall_fmap. eapply Forall_impl; [exact Hvalid|]. by intros doc. }
  { by rewrite <- list_fmap_compose. }
  rewrite Heval in Heval'. injection Heval' as <-.
  unfold filterDocumentsByRecommendations.
  rewrite getTopNRecommendations_take by done.
  rewrite take_ge by (rewrite sortedList_length; lia).
  rewrite filterDocuments_filter. f_equal.
  unfold generateThemeUpdatedDocs.
  rewrite (themeKeys_sameFlags p' p)
    by (apply sameFlags_sym; by eapply evaluate_sameFlags).
  f_equal. apply filter_iff_in. intros doc Hdoc.
  specialize (Hscores (documentRule doc) (list_elem_of_fmap_2 _ _ _ Hdoc)).
  cbn [documentRule ruleSongId ruleSongThemes] in Hscores.
  rewrite Hempty, lookup_empty in Hscores.
  rewrite list_elem_of_fmap. split.
  - intros (e & Hkey & He). apply sortedList_elem in He.
    rewrite <- Hkey, Hscores in He.
    destruct (bool_decide (0 < matchCount p (themeNames doc))) eqn:Hfired;
      [by apply bool_decide_eq_true_1 in Hfired|done].
  - intros Hfired. rewrite bool_decide_eq_true_2 in Hscores by done.
    exists {| Key := RuleID doc; Value := scoreOf p (themeNames doc) |}.
    split; [done|]. by apply sortedList_elem.
Qed.

(** The spec's scenario: [A] carries Home and America, [B] carries Love, the
    user selected Home and America.  The response is [A] alone. *)
Lemma small_result_response_witness :
  @filterDocumentsByRecommendations forwardRuntime
    [ exampleDoc "A" "First" [("home", "x"); ("america", "y")];
      exampleDoc "B" "Second" [("love", "z")] ]
    (storeRecommendation homeAmericaUser "A" 38)
  = Return
      (@generateThemeUpdatedDocs forwardRuntime
         (filter (fun doc =>
                    0 < matchCount homeAmericaUser
                          (@themeNames forwardRuntime doc))
            [ exampleDoc "A" "First" [("home", "x"); ("america", "y")];
              exampleDoc "B" "Second" [("love", "z")] ])
         homeAmericaUser).
Proof.
  apply (@small_result_response forwardRuntime
           [ exampleDoc "A" "First" [("home", "x"); ("america", "y")];
             exampleDoc "B" "Second" [("love", "z")] ]
           homeAmericaUser (storeRecommendation homeAmericaUser "A" 38)).
  - reflexivity.
  - apply (bool_decide_unpack _). by vm_compute.
  - apply (bool_decide_unpack _). by vm_compute.
  - by vm_compute.
  - vm_compute. lia.
Defined.
